(** * seq2map: the least-squares problem and the Levenberg-Marquardt solver

    A shallow embedding of [sources/base/solve.cpp]:
    [LeastSquaresProblem::ComputeJacobian], [DiffThread], [SetActiveVars],
    [ApplyUpdate] and [LevenbergMarquardtAlgorithm::Solve].

    - [double] is Rocq's primitive binary64 [float]; [size_t] values are
      indices and counters that never exceed a vector size or [maxCount], so
      they are [nat] (dimensions are taken to fit the [int] that OpenCV
      wants).
    - [std::vector<double>] is [list float], updated in place with stdpp's
      list insert; every out-of-range access of the source is written out as
      [Fault].
    - [cv::Mat] is a record of its dimensions and its rows.  The numerical
      kernels of OpenCV, and the helper [rms] that seq2map declares in
      another file, are the fields of a [Numerics] record.
    - the worker threads of [ComputeJacobian] are run under an arbitrary
      schedule; [Solve] is a transition system over its two loop heads. *)

From Stdlib Require Import ZArith Lia Floats String.
From stdpp Require Import base list.

Abbreviation Vec := (list float).
Abbreviation Indices := (list nat).

(** ** Outcomes of a call *)

(** [Throw]: a C++ exception leaves the call (OpenCV's [cv::Exception], which
    [Solve] catches).  [Fault]: the call has no result that every build
    agrees on: an access out of range, an integer division by zero, a failed
    [assert], or operands whose sizes OpenCV cannot reconcile inside a
    worker thread, where no handler catches what it raises. *)
Inductive outcome (A : Type) : Type :=
| Ok (a : A)
| Throw (what : string)
| Fault.
Arguments Ok {A} a.
Arguments Throw {A} what.
Arguments Fault {A}.

#[global] Instance outcome_ret : MRet outcome := fun A a => Ok a.
#[global] Instance outcome_bind : MBind outcome := fun A B k m =>
  match m with
  | Ok a => k a
  | Throw w => Throw w
  | Fault => Fault
  end.

(** ** Matrices *)

Record Mat (A : Type) := mkMat { rows : nat; cols : nat; elems : list (list A) }.
Arguments mkMat {A} rows cols elems.
Arguments rows {A} m.
Arguments cols {A} m.
Arguments elems {A} m.

(** [cv::Mat::zeros(m, n, CV_64F)] *)
Definition Mat_zeros (m n : nat) : Mat float :=
  mkMat m n (replicate m (replicate n 0%float)).

(** [cv::Mat::empty()] *)
Definition Mat_empty {A} (M : Mat A) : bool := (rows M * cols M =? 0)%nat.

Definition Mat_at (M : Mat float) (i k : nat) : float :=
  default 0%float (elems M !! i ≫= (.!! k)).

(** The elements seen through the view [M.col(k)]. *)
Definition Mat_col {A} (d : A) (M : Mat A) (k : nat) : list A :=
  (fun r => default d (r !! k)) <$> elems M.

(** Writing [v] through the view [M.col(k)] as an [OutputArray]: when the
    shapes agree the elements of [M] are overwritten; otherwise the view
    header is re-allocated and [M] keeps its elements. *)
Definition Mat_write_col (M : Mat float) (k : nat) (v : Vec) : Mat float :=
  if decide (length v = rows M)
  then mkMat (rows M) (cols M) (zip_with (fun r a => <[k := a]> r) (elems M) v)
  else M.

(** [M.t()] *)
Definition Mat_t (M : Mat float) : Mat float :=
  mkMat (cols M) (rows M) (Mat_col 0%float M <$> seq 0 (cols M)).

(** [cv::Mat(v)] for a [std::vector<double>]: one column. *)
Definition Mat_of_vec (v : Vec) : Mat float :=
  mkMat (length v) 1 ((fun a => [a]) <$> v).

(** The conversion of a [cv::Mat] to [std::vector<double>]. *)
Definition Vec_of_mat (M : Mat float) : Vec := concat (elems M).

(** [M.diag()] *)
Definition Mat_diag (M : Mat float) : Vec :=
  (fun i => Mat_at M i i) <$> seq 0 (rows M `min` cols M).

(** [cv::Mat::diag(d)] *)
Definition Mat_diagonal (d : Vec) : Mat float :=
  mkMat (length d) (length d)
    (imap (fun i a => <[i := a]> (replicate (length d) 0%float)) d).

Definition Mat_neg (M : Mat float) : Mat float :=
  mkMat (rows M) (cols M) ((fun r : Vec => (fun a => (- a)%float) <$> r) <$> elems M).

(** [H + lambda * M], element by element; the shapes must agree. *)
Definition Mat_add_scaled (H : Mat float) (lambda : float) (M : Mat float)
  : outcome (Mat float) :=
  if decide (rows H = rows M /\ cols H = cols M)
  then Ok (mkMat (rows H) (cols H)
             (zip_with (zip_with (fun h a => (h + lambda * a)%float))
                (elems H) (elems M)))
  else Throw "sizes of input arguments do not match".

(** ** Numerical kernels outside the repository sources *)

Record Numerics := {
  cv_gemm : Mat float -> Mat float -> outcome (Mat float); (* [A * B] *)
  cv_inv : Mat float -> outcome (Mat float);               (* [A.inv()] *)
  cv_mean : Vec -> float;                                  (* [cv::mean(v)[0]] *)
  cv_norm : Vec -> float;                                  (* [cv::norm(v)] *)
  rms : Vec -> float;
}.

(** ** The least-squares problem *)

(** The data members of [LeastSquaresProblem] and its two virtual members:
    [call] is [operator()] on a vector, [SetSolution] the solution sink.  The
    pattern is an integer matrix whose zeros mark independent pairs. *)
Record LeastSquaresProblem := {
  m_conds : nat;
  m_vars : nat;
  m_varIdx : Indices;
  m_jacobianPattern : Mat Z;
  m_diffStep : float;
  m_diffThreads : nat;
  call : Vec -> Vec;
  SetSolution : Vec -> bool;
}.

Definition with_varIdx (p : LeastSquaresProblem) (varIdx : Indices) :=
  {| m_conds := m_conds p; m_vars := m_vars p; m_varIdx := varIdx;
     m_jacobianPattern := m_jacobianPattern p; m_diffStep := m_diffStep p;
     m_diffThreads := m_diffThreads p; call := call p;
     SetSolution := SetSolution p |}.

(** *** SetActiveVars *)

Fixpoint all_below (n : nat) (varIdx : Indices) : bool :=
  match varIdx with
  | [] => true
  | var :: rest => if decide (n <= var) then false else all_below n rest
  end.

(** The result and the object after the call. *)
Definition SetActiveVars (p : LeastSquaresProblem) (varIdx : Indices)
  : bool * LeastSquaresProblem :=
  if all_below (m_vars p) varIdx then (true, with_varIdx p varIdx) else (false, p).

(** *** ApplyUpdate *)

(** The loop [x[var] += delta[i++]] over the active variables. *)
Fixpoint add_deltas (varIdx : Indices) (delta : Vec) (i : nat) (x : Vec)
  : outcome Vec :=
  match varIdx with
  | [] => Ok x
  | var :: rest =>
      match x !! var, delta !! i with
      | Some xv, Some d => add_deltas rest delta (S i) (<[var := (xv + d)%float]> x)
      | _, _ => Fault
      end
  end.

Definition ApplyUpdate (p : LeastSquaresProblem) (x0 delta : Vec) : outcome Vec :=
  if decide (length delta <= length x0)
  then add_deltas (m_varIdx p) delta 0 x0
  else Fault.

(** *** ComputeJacobian and its worker threads *)

(** [col] is the index of the column of [J] that the view aliases; [mask] is
    a column of the pattern, or empty. *)
Record JacobianSlice := {
  sl_x : Vec;
  sl_y : Vec;
  sl_var : nat;
  sl_col : nat;
  sl_mask : list Z;
}.
Abbreviation JacobianSlices := (list JacobianSlice).

(** [m_jacobianPattern.col(var)], which checks the range. *)
Definition pattern_col (M : Mat Z) (var : nat) : outcome (list Z) :=
  if decide (var < cols M) then Ok (Mat_col 0%Z M var)
  else Throw "column out of range".

(** The loop that deals the active variables to the threads; [i] counts the
    variables seen so far. *)
Fixpoint make_slices (p : LeastSquaresProblem) (masking : bool) (x y : Vec)
    (varIdx : Indices) (i : nat) (slices : list JacobianSlices)
  : outcome (list JacobianSlices) :=
  match varIdx with
  | [] => Ok slices
  | var :: rest =>
      if decide (m_diffThreads p = 0) then Fault else
      let threadIdx := i mod m_diffThreads p in
      mask ← (if masking then pattern_col (m_jacobianPattern p) var else Ok []);
      let slice := {| sl_x := x; sl_y := y; sl_var := var; sl_col := i;
                      sl_mask := mask |} in
      make_slices p masking x y rest (S i)
        (alter (fun s => s ++ [slice]) threadIdx slices)
  end.

(** An operand that the element-wise arithmetic of OpenCV takes for a
    scalar when the sizes of its operands differ: a column of one element,
    or of four doubles (the layout of a [cv::Scalar]). *)
Definition scalar_like (v : Vec) : bool :=
  bool_decide (length v = 1 \/ length v = 4).

(** [cv::Mat(a) - cv::Mat(b)] for two columns of doubles, which is
    [cv::subtract].  Columns of the same size are subtracted element by
    element.  When the sizes differ, the first operand is tried as a scalar,
    then the second: the first element of the scalar is combined with every
    element of the other operand, which gives the size of the result.  When
    neither operand passes for a scalar [cv::subtract] raises; an empty
    operand against a non-empty one is left without a result. *)
Definition Mat_sub (a b : Vec) : outcome Vec :=
  if decide (length a = length b) then Ok (zip_with PrimFloat.sub a b)
  else
    match a, b with
    | sa :: _, sb :: _ =>
        if scalar_like a then Ok ((fun v => (sa - v)%float) <$> b)
        else if scalar_like b then Ok ((fun v => (v - sb)%float) <$> a)
        else Fault
    | _, _ => Fault
    end.

(** The body of the loop of [DiffThread]: one column by forward difference,
    [Jk = (f(x+dx) - f(x)) / dx], with [cv::divide] by the scalar [dx] taken
    as the binary64 quotient.  The mask of the slice is not read. *)
Definition DiffThread_slice (lsq : LeastSquaresProblem) (slice : JacobianSlice)
    (J : Mat float) : outcome (Mat float) :=
  let dx := m_diffStep lsq in
  match sl_x slice !! sl_var slice with
  | None => Fault
  | Some xv =>
      let x := <[sl_var slice := (xv + dx)%float]> (sl_x slice) in
      dy ← Mat_sub (call lsq x) (sl_y slice);
      Ok (Mat_write_col J (sl_col slice) ((fun v => (v / dx)%float) <$> dy))
  end.

Fixpoint DiffThread (lsq : LeastSquaresProblem) (slices : JacobianSlices)
    (J : Mat float) : outcome (Mat float) :=
  match slices with
  | [] => Ok J
  | slice :: rest => J' ← DiffThread_slice lsq slice J; DiffThread lsq rest J'
  end.

(** The threads under a schedule: each entry names the thread that runs the
    next slice of its queue; a thread whose queue is empty has finished.  A
    slice reads its own copies of [x] and [y] and writes its own column, so
    running it in one piece hides no interleaving. *)
Fixpoint run_threads (lsq : LeastSquaresProblem) (sched : list nat)
    (queues : list JacobianSlices) (J : Mat float)
  : outcome (list JacobianSlices * Mat float) :=
  match sched with
  | [] => Ok (queues, J)
  | k :: sched' =>
      match queues !! k with
      | Some (slice :: rest) =>
          J' ← DiffThread_slice lsq slice J;
          run_threads lsq sched' (<[k := rest]> queues) J'
      | _ => run_threads lsq sched' queues J
      end
  end.

(** [join_all] returns once every queue is empty. *)
Definition all_joined (queues : list JacobianSlices) : Prop :=
  Forall (fun q => q = []) queues.

(** The schedule in which the threads run one after the other. *)
Fixpoint join_all (lsq : LeastSquaresProblem) (threads : list JacobianSlices)
    (J : Mat float) : outcome (Mat float) :=
  match threads with
  | [] => Ok J
  | slices :: rest => J' ← DiffThread lsq slices J; join_all lsq rest J'
  end.

(** What a call of [ComputeJacobian] leaves: the matrix returned, the in/out
    argument [y], and the receiver (the member function is [const]). *)
Record JacobianCall := {
  jac : Mat float;
  y_io : Vec;
  self : LeastSquaresProblem;
}.

Definition Jacobian_setup (p : LeastSquaresProblem) (x y : Vec)
  : outcome (Mat float * Vec * list JacobianSlices) :=
  let J := Mat_zeros (m_conds p) (length (m_varIdx p)) in
  let masking := negb (Mat_empty (m_jacobianPattern p)) in
  let y := match y with [] => call p x | _ => y end in
  slices ← make_slices p masking x y (m_varIdx p) 0 (replicate (m_diffThreads p) []);
  Ok (J, y, slices).

Definition ComputeJacobian (p : LeastSquaresProblem) (x y : Vec)
  : outcome JacobianCall :=
  '(J, y, slices) ← Jacobian_setup p x y;
  J' ← join_all p slices J;
  Ok {| jac := J'; y_io := y; self := p |}.

(** The same call with the threads interleaved by [sched]. *)
Definition ComputeJacobian_sched (p : LeastSquaresProblem) (sched : list nat)
    (x y : Vec) : outcome (list JacobianSlices * JacobianCall) :=
  '(J, y, slices) ← Jacobian_setup p x y;
  '(pending, J') ← run_threads p sched slices J;
  Ok (pending, {| jac := J'; y_io := y; self := p |}).

(** The single-threaded reference: column [k] is the forward difference of
    the residual along the [k]-th active variable. *)
Definition perturb (x : Vec) (var : nat) (h : float) : Vec :=
  match x !! var with
  | Some xv => <[var := (xv + h)%float]> x
  | None => x
  end.

Definition forward_difference (p : LeastSquaresProblem) (x : Vec) (var : nat) : Vec :=
  zip_with (fun a b => ((a - b) / m_diffStep p)%float)
    (call p (perturb x var (m_diffStep p))) (call p x).

Definition reference_jacobian (p : LeastSquaresProblem) (x : Vec) : Mat float :=
  mkMat (m_conds p) (length (m_varIdx p))
    ((fun i => (fun var => default 0%float (forward_difference p x var !! i))
                 <$> m_varIdx p)
       <$> seq 0 (m_conds p)).

(** ** The Levenberg-Marquardt solver *)

Record Termination := { maxCount : nat; epsilon : float }.

Record LevenbergMarquardtAlgorithm := {
  m_lambda : float;
  m_eta : float;
  m_term : Termination;
  m_verbose : bool;
}.

(** What [Solve] writes to the log streams. *)
Inductive event :=
| Info_rule
| Info_header
| Info_row (updates : nat) (e_best lambda : float) (ratios : option (float * float))
| Warning_not_responsive (d : nat)
| Error (msg : string)
| Error_x_best (x : Vec).

(** The locals of [Solve] that live across the outer loop. *)
Record lm_state := {
  lambda : float;
  converged : bool;
  derr : list float;
  x_best : Vec;
  y_best : Vec;
  e_best : float;
  updates : nat;
}.

(** The locals of one outer iteration: [Hmat] and [Dvec] are the matrices
    [H] and [D]; [ratios] is [(stepRatio, derrRatio)], indeterminate until
    the first trial. *)
Record inner_vars := {
  Hmat : Mat float;
  Dvec : Mat float;
  better : bool;
  trials : nat;
  ratios : option (float * float);
}.

(** The control points: the test of the outer loop, the test of the inner
    loop, and the return; [sink] lists the arguments [SetSolution] was
    called with. *)
Inductive config :=
| AtOuter (s : lm_state) (log : list event)
| AtInner (s : lm_state) (v : inner_vars) (log : list event)
| Returned (ret : bool) (log : list event) (sink : list Vec).

Record solve_result := {
  ret : bool;
  log : list event;
  sink : list Vec;
}.

(** [derrRatio] *)
Definition derr_ratio (derr : list float) : float :=
  if decide (1 < length derr) then
    let last := default 0%float (derr !! (length derr - 1)) in
    let prev := default 0%float (derr !! (length derr - 2)) in
    (last / prev)%float
  else 1%float.

(** The warnings of the scan of [H.diag()], from index [d] on. *)
Fixpoint not_responsive (icv : Vec) (d : nat) : list event :=
  match icv with
  | [] => []
  | v :: rest =>
      (if (v =? 0)%float then [Warning_not_responsive d] else [])
        ++ not_responsive rest (S d)
  end.

Section Solve.
Context (alg : LevenbergMarquardtAlgorithm) (nm : Numerics)
        (f : LeastSquaresProblem).

(** The head of the body of the outer loop, up to the inner loop. *)
Definition begin_outer (s : lm_state) (log : list event) : outcome config :=
  r ← ComputeJacobian f (x_best s) (y_best s);
  let J := jac r in
  H ← cv_gemm nm (Mat_t J) J;
  D ← cv_gemm nm (Mat_t J) (Mat_of_vec (y_io r));
  let lambda' :=
    if (lambda s <? 0)%float then cv_mean nm (Mat_diag H) else lambda s in
  Ok (AtInner
        {| lambda := lambda'; converged := converged s; derr := derr s;
           x_best := x_best s; y_best := y_io r; e_best := e_best s;
           updates := updates s |}
        {| Hmat := H; Dvec := D; better := false; trials := 0; ratios := None |}
        log).

(** [x_delta = A.inv() * -D] for the augmented normal equations. *)
Definition propose (s : lm_state) (v : inner_vars) : outcome Vec :=
  A ← Mat_add_scaled (Hmat v) (lambda s) (Mat_diagonal (Mat_diag (Hmat v)));
  Ai ← cv_inv nm A;
  x_delta ← cv_gemm nm Ai (Mat_neg (Dvec v));
  Ok (Vec_of_mat x_delta).

(** The state after the accept-or-reject branch of a trial. *)
Definition accept_or_reject (s : lm_state) (x_try y_try : Vec) (e_try de : float)
  : lm_state :=
  if (0 <? de)%float
  then {| lambda := (lambda s / m_eta alg)%float; converged := converged s;
          derr := derr s ++ [de]; x_best := x_try; y_best := y_try;
          e_best := e_try; updates := S (updates s) |}
  else {| lambda := (lambda s * m_eta alg)%float; converged := converged s;
          derr := derr s; x_best := x_best s; y_best := y_best s;
          e_best := e_best s; updates := updates s |}.

(** The four convergence tests after a trial. *)
Definition convergence_control (s : lm_state) (better : bool) (trials : nat)
    (derrRatio stepRatio : float) : bool :=
  let c := converged s in
  let c := c || bool_decide (maxCount (m_term alg) <= updates s) in
  let c := c || (bool_decide (1 < updates s)
                 && (derrRatio <? epsilon (m_term alg))%float) in
  let c := c || (bool_decide (1 < updates s)
                 && (stepRatio <? epsilon (m_term alg))%float) in
  c || (negb better && ((lambda s =? 0)%float
                        || bool_decide (maxCount (m_term alg) <= trials))).

Definition with_converged (s : lm_state) (c : bool) : lm_state :=
  {| lambda := lambda s; converged := c; derr := derr s; x_best := x_best s;
     y_best := y_best s; e_best := e_best s; updates := updates s |}.

(** The body of the inner loop up to the test of [ill]: the locals after the
    convergence control, the warnings of the scan of the diagonal of [H],
    and [ill]. *)
Definition trial_body (s : lm_state) (v : inner_vars)
  : outcome (lm_state * inner_vars * list event * bool) :=
  x_delta ← propose s v;
  x_try ← ApplyUpdate f (x_best s) x_delta;
  let y_try := call f x_try in
  let e_try := rms nm y_try in
  let de := (e_best s - e_try)%float in
  let better := (0 <? de)%float in
  let trials := S (trials v) in
  let s1 := accept_or_reject s x_try y_try e_try de in
  let derrRatio := derr_ratio (derr s1) in
  let stepRatio := (cv_norm nm x_delta / cv_norm nm (x_best s1))%float in
  let s2 := with_converged s1
              (convergence_control s1 better trials derrRatio stepRatio) in
  let warnings := not_responsive (Mat_diag (Hmat v)) 0 in
  let ill := bool_decide (warnings <> [])
             || negb (is_finite (cv_norm nm x_delta)) in
  Ok (s2,
      {| Hmat := Hmat v; Dvec := Dvec v; better := better; trials := trials;
         ratios := Some (stepRatio, derrRatio) |},
      warnings, ill).

(** One pass through the body of the inner loop. *)
Definition trial (s : lm_state) (v : inner_vars) (log : list event)
  : outcome config :=
  r ← trial_body s v;
  let '(s2, v2, warnings, ill) := (r : lm_state * inner_vars * list event * bool) in
  if ill
  then Ok (Returned false (log ++ warnings ++ [Error "problem ill-posed"]) [])
  else Ok (AtInner s2 v2 (log ++ warnings)).

(** The [catch] clause around the outer loop. *)
Definition catch (log : list event) (m : outcome config) : outcome config :=
  match m with
  | Throw what =>
      Ok (Returned false
            (log ++ [Error "exception caught in optimisation loop"; Error what])
            [])
  | _ => m
  end.

(** After the outer loop: the solution goes to the sink. *)
Definition finish (s : lm_state) (log : list event) : config :=
  if SetSolution f (x_best s)
  then Returned true log [x_best s]
  else Returned false
         (log ++ [Error "error setting solution"; Error_x_best (x_best s)])
         [x_best s].

Definition step (c : config) : outcome config :=
  match c with
  | AtOuter s log =>
      if converged s then Ok (finish s log) else catch log (begin_outer s log)
  | AtInner s v log =>
      if negb (better v) && negb (converged s)
      then catch log (trial s v log)
      else Ok (AtOuter s
                 (log ++ if m_verbose alg
                         then [Info_row (updates s) (e_best s) (lambda s) (ratios v)]
                         else []))
  | Returned _ _ _ => Ok c
  end.

(** The statements of [Solve] before the outer loop. *)
Definition Solve_entry (x0 : Vec) : outcome config :=
  if (1 <? m_eta alg)%float then
    let y := call f x0 in
    let e := rms nm y in
    Ok (AtOuter
          {| lambda := m_lambda alg; converged := false; derr := [];
             x_best := x0; y_best := y; e_best := e; updates := 0 |}
          (if m_verbose alg
           then [Info_rule; Info_header; Info_rule;
                 Info_row 0 e (m_lambda alg) None]
           else []))
  else Fault.

Fixpoint run (fuel : nat) (c : config) : outcome (option solve_result) :=
  match c with
  | Returned r l k => Ok (Some {| ret := r; log := l; sink := k |})
  | _ =>
      match fuel with
      | 0 => Ok None
      | S fuel' => c' ← step c; run fuel' c'
      end
  end.

(** [Solve] with a bound on the number of loop tests; [None]: the bound
    was reached. *)
Definition Solve (fuel : nat) (x0 : Vec) : outcome (option solve_result) :=
  c ← Solve_entry x0; run fuel c.

(** The configurations a call of [Solve] passes through. *)
Inductive reach (c0 : config) : config -> Prop :=
| reach_refl : reach c0 c0
| reach_step c c' : reach c0 c -> step c = Ok c' -> reach c0 c'.

(** The trials of one inner loop entered at [c0]. *)
Inductive inner_reach (c0 : config) : config -> Prop :=
| inner_refl : inner_reach c0 c0
| inner_trial s v l s' v' l' :
    inner_reach c0 (AtInner s v l) ->
    step (AtInner s v l) = Ok (AtInner s' v' l') ->
    inner_reach c0 (AtInner s' v' l').
End Solve.

(** ** Reference numerics and sample problems *)

(** Small kernels on which the sample problems can be run.  They stand in
    for OpenCV on the samples only, which have at most one active variable;
    no property below is stated of them: every theorem holds for all
    [Numerics]. *)

Module Reference.
Definition dot (a b : Vec) : float :=
  foldl (fun acc uv => (acc + uv.1 * uv.2)%float) 0%float (zip a b).

Definition gemm (A B : Mat float) : outcome (Mat float) :=
  if decide (cols A = rows B)
  then Ok (mkMat (rows A) (cols B)
             ((fun r => (fun k => dot r (Mat_col 0%float B k)) <$> seq 0 (cols B))
                <$> elems A))
  else Throw "gemm: sizes do not match".

(** Inverse of a matrix of at most one row; a singular matrix gives zeros. *)
Definition inv (A : Mat float) : outcome (Mat float) :=
  if decide (rows A = cols A) then
    match elems A with
    | [] => Ok (mkMat (rows A) (cols A) [])
    | [[a]] => Ok (mkMat 1 1 [[if (a =? 0)%float then 0%float else (1 / a)%float]])
    | _ => Throw "inv: more than one row"
    end
  else Throw "inv: not square".

Definition mean (v : Vec) : float :=
  match v with
  | [] => 0%float
  | _ => (foldl PrimFloat.add 0 v / foldl (fun c _ => c + 1) 0 v)%float
  end.

Definition norm (v : Vec) : float := PrimFloat.sqrt (dot v v).

(** Modelled from the spec: [rms(v) = sqrt(mean(v_i^2))]; the helper [rms]
    is declared in a file of seq2map other than [solve.cpp]. *)
Definition rms (v : Vec) : float := PrimFloat.sqrt (mean (zip_with PrimFloat.mul v v)).

Definition numerics : Numerics :=
  Build_Numerics gemm inv mean norm rms.
End Reference.

Module Samples.
Definition no_pattern : Mat Z := mkMat 0 0 [].

Definition coord (x : Vec) (i : nat) : float := default 0%float (x !! i).

(** One residual [x_0 - 3] of one variable. *)
Definition shift3 : LeastSquaresProblem :=
  {| m_conds := 1; m_vars := 1; m_varIdx := [0]; m_jacobianPattern := no_pattern;
     m_diffStep := 0.5%float; m_diffThreads := 1;
     call := fun x => [(coord x 0 - 3)%float];
     SetSolution := fun _ => true |}.

(** The same residual with a pattern whose only entry is zero. *)
Definition shift3_masked : LeastSquaresProblem :=
  {| m_conds := 1; m_vars := 1; m_varIdx := [0];
     m_jacobianPattern := mkMat 1 1 [[0%Z]];
     m_diffStep := 0.5%float; m_diffThreads := 1;
     call := call shift3; SetSolution := fun _ => true |}.

(** The same residual with no worker thread. *)
Definition shift3_unthreaded : LeastSquaresProblem :=
  {| m_conds := 1; m_vars := 1; m_varIdx := [0]; m_jacobianPattern := no_pattern;
     m_diffStep := 0.5%float; m_diffThreads := 0;
     call := call shift3; SetSolution := fun _ => true |}.

(** The same residual with its variable frozen. *)
Definition shift3_frozen : LeastSquaresProblem :=
  {| m_conds := 1; m_vars := 1; m_varIdx := []; m_jacobianPattern := no_pattern;
     m_diffStep := 0.5%float; m_diffThreads := 1;
     call := call shift3; SetSolution := fun _ => true |}.

(** Two residuals of three variables, the middle one frozen. *)
Definition planar : LeastSquaresProblem :=
  {| m_conds := 2; m_vars := 3; m_varIdx := [0; 2]; m_jacobianPattern := no_pattern;
     m_diffStep := 0.25%float; m_diffThreads := 2;
     call := fun x => [(coord x 0 + coord x 1)%float;
                       (coord x 2 * coord x 0)%float];
     SetSolution := fun _ => true |}.

(** One residual [x_0 - 3] of two variables, of which only the second is
    active: the residual does not respond to it. *)
Definition deaf1 : LeastSquaresProblem :=
  {| m_conds := 1; m_vars := 2; m_varIdx := [1]; m_jacobianPattern := no_pattern;
     m_diffStep := 0.5%float; m_diffThreads := 1;
     call := fun x => [(coord x 0 - 3)%float]; SetSolution := fun _ => true |}.

(** One residual [x_0 / sqrt(1 + x_0^2)], on which a full Gauss-Newton step
    from 2 overshoots. *)
Definition sigmoid : LeastSquaresProblem :=
  {| m_conds := 1; m_vars := 1; m_varIdx := [0]; m_jacobianPattern := no_pattern;
     m_diffStep := 0x1p-10%float; m_diffThreads := 1;
     call := fun x => [(coord x 0 / PrimFloat.sqrt (1 + coord x 0 * coord x 0))%float];
     SetSolution := fun _ => true |}.

Definition lm8 : LevenbergMarquardtAlgorithm :=
  {| m_lambda := 0.125%float; m_eta := 8%float;
     m_term := {| maxCount := 10; epsilon := 0x1p-20%float |};
     m_verbose := false |}.

Definition lm : LevenbergMarquardtAlgorithm :=
  {| m_lambda := (-1)%float; m_eta := 10%float;
     m_term := {| maxCount := 3; epsilon := 0x1p-20%float |};
     m_verbose := true |}.

Definition the_config (o : outcome config) : config :=
  match o with
  | Ok c => c
  | _ => Returned false [] []
  end.

(** [Solve] on [shift3] from 0: the entry and the first inner loop head. *)
Definition descent_0 : config :=
  Eval vm_compute in the_config (Solve_entry lm Reference.numerics shift3 [0%float]).
Definition descent_1 : config :=
  Eval vm_compute in the_config (step lm Reference.numerics shift3 descent_0).

(** The first trial of that run, which is accepted. *)
Definition descent_trial : outcome (lm_state * inner_vars * list event * bool) :=
  Eval vm_compute in
    match descent_1 with
    | AtInner s v _ => trial_body lm Reference.numerics shift3 s v
    | _ => Fault
    end.

(** [Solve] on [sigmoid] from 2 with damping 1/8 and gain 8: the entry, the
    first inner loop head, and the heads after each of its three trials,
    two rejected and one accepted. *)
Definition climb_0 : config :=
  Eval vm_compute in the_config (Solve_entry lm8 Reference.numerics sigmoid [2%float]).
Definition climb_1 : config :=
  Eval vm_compute in the_config (step lm8 Reference.numerics sigmoid climb_0).
Definition climb_2 : config :=
  Eval vm_compute in the_config (step lm8 Reference.numerics sigmoid climb_1).
Definition climb_3 : config :=
  Eval vm_compute in the_config (step lm8 Reference.numerics sigmoid climb_2).
Definition climb_4 : config :=
  Eval vm_compute in the_config (step lm8 Reference.numerics sigmoid climb_3).

(** [Solve] on [deaf1] from (0, 0): the entry and the first inner loop
    head. *)
Definition stuck_0 : config :=
  Eval vm_compute in the_config (Solve_entry lm Reference.numerics deaf1 [0; 0]%float).
Definition stuck_1 : config :=
  Eval vm_compute in the_config (step lm Reference.numerics deaf1 stuck_0).

(** The sample kernels with an inverse that refuses a matrix without
    rows. *)
Definition refusing : Numerics :=
  Build_Numerics Reference.gemm
    (fun A => match elems A with
              | [] => Throw "inv: matrix without rows"
              | _ => Reference.inv A
              end)
    Reference.mean Reference.norm Reference.rms.
End Samples.

(** ** Vocabulary of the properties *)

(** The rows of a matrix are as many and as long as its dimensions say. *)
Definition Mat_wf {A} (M : Mat A) : Prop :=
  length (elems M) = rows M /\ Forall (fun r => length r = cols M) (elems M).

(** The column differenced against [y0] along variable [var]. *)
Definition fd_against (p : LeastSquaresProblem) (x y0 : Vec) (var : nat) : Vec :=
  zip_with (fun a b => ((a - b) / m_diffStep p)%float)
    (call p (perturb x var (m_diffStep p))) y0.

(** A slice dealt by [ComputeJacobian p x y0]. *)
Definition slice_ok (p : LeastSquaresProblem) (x y0 : Vec) (sl : JacobianSlice) : Prop :=
  sl_x sl = x /\ sl_y sl = y0 /\ sl_var sl < length x /\
  m_varIdx p !! sl_col sl = Some (sl_var sl).

(** The column that belongs at index [k]. *)
Definition column_of (p : LeastSquaresProblem) (x y0 : Vec) (k : nat) : Vec :=
  fd_against p x y0 (default 0 (m_varIdx p !! k)).

(** [J] has every column below [n] either in place or still to be written by
    a slice among [rem]. *)
Definition Jinv (p : LeastSquaresProblem) (x y0 : Vec)
    (rem : JacobianSlice -> Prop) (J : Mat float) : Prop :=
  Mat_wf J /\ rows J = m_conds p /\ cols J = length (m_varIdx p) /\
  forall k, k < length (m_varIdx p) ->
    Mat_col 0%float J k = column_of p x y0 k \/ exists sl, rem sl /\ sl_col sl = k.

(** What the data model asks of a problem and of the point [x]: at least one
    worker thread, a positive step (on a zero step the releases of OpenCV
    disagree about [cv::divide]), [x] and the active indices within the
    declared dimension, residuals of the declared length, and a pattern that
    is absent or as wide as the parameter space. *)
Record well_formed (p : LeastSquaresProblem) (x : Vec) : Prop := {
  wf_threads : 0 < m_diffThreads p;
  wf_step : (0 <? m_diffStep p)%float = true;
  wf_x : length x = m_vars p;
  wf_active : Forall (fun var => var < m_vars p) (m_varIdx p);
  wf_call : forall v, length (call p v) = m_conds p;
  wf_pattern : Mat_empty (m_jacobianPattern p) = true
               \/ cols (m_jacobianPattern p) = m_vars p;
}.

(** The locals of [Solve] at a loop head. *)
Definition state_of (c : config) : option lm_state :=
  match c with
  | AtOuter s _ | AtInner s _ _ => Some s
  | Returned _ _ _ => None
  end.

(** What holds of the locals of [Solve] at both loop heads. *)
Definition state_inv (nm : Numerics) (f : LeastSquaresProblem) (s : lm_state) : Prop :=
  y_best s = call f (x_best s) /\ e_best s = rms nm (y_best s) /\
  length (derr s) = updates s.

Definition config_inv (nm : Numerics) (f : LeastSquaresProblem) (c : config) : Prop :=
  match state_of c with
  | Some s => state_inv nm f s
  | None => True
  end.

(** The locals that a trial holds at its test of [ill], given the step it
    proposed and the point it tried. *)
Definition after_trial (alg : LevenbergMarquardtAlgorithm) (nm : Numerics)
    (f : LeastSquaresProblem) (s : lm_state) (v : inner_vars)
    (x_delta x_try : Vec) : lm_state * inner_vars :=
  let y_try := call f x_try in
  let e_try := rms nm y_try in
  let de := (e_best s - e_try)%float in
  let s1 := accept_or_reject alg s x_try y_try e_try de in
  let derrRatio := derr_ratio (derr s1) in
  let stepRatio := (cv_norm nm x_delta / cv_norm nm (x_best s1))%float in
  (with_converged s1
     (convergence_control alg s1 (0 <? de)%float (S (trials v)) derrRatio stepRatio),
   {| Hmat := Hmat v; Dvec := Dvec v; better := (0 <? de)%float;
      trials := S (trials v); ratios := Some (stepRatio, derrRatio) |}).

(** A trial is ill-posed. *)
Definition ill_posed (nm : Numerics) (v : inner_vars) (x_delta : Vec) : bool :=
  bool_decide (not_responsive (Mat_diag (Hmat v)) 0 <> [])
  || negb (is_finite (cv_norm nm x_delta)).

(** [lambda0] multiplied [rejects] times by [eta], then divided [accepts]
    times by [eta]. *)
Definition scaled (eta : float) (accepts rejects : nat) (lambda0 : float) : float :=
  Nat.iter accepts (fun l => (l / eta)%float)
    (Nat.iter rejects (fun l => (l * eta)%float) lambda0).

(** An assumption on the kernels that the sources do not settle: the
    product, the inverse and the norm take operands without rows and give
    results without rows.  Where a kernel refuses such an operand, a solve
    with an empty active set ends in the [catch] clause. *)
Record empty_safe (nm : Numerics) : Prop := {
  gemm_no_rows : forall A B, rows A = 0 -> elems A = [] -> cols A = rows B ->
    exists C, cv_gemm nm A B = Ok C /\ rows C = 0 /\ cols C = cols B /\ elems C = [];
  inv_no_rows : forall A, rows A = 0 -> cols A = 0 -> elems A = [] ->
    exists C, cv_inv nm A = Ok C /\ rows C = 0 /\ cols C = 0 /\ elems C = [];
  norm_nil_finite : is_finite (cv_norm nm []) = true;
}.

(** With an empty active set no update is ever accepted. *)
Definition frozen_cfg (nm : Numerics) (f : LeastSquaresProblem) (x0 : Vec)
    (c : config) : Prop :=
  match c with
  | AtOuter s _ => x_best s = x0 /\ updates s = 0 /\ state_inv nm f s
  | AtInner s v _ =>
      x_best s = x0 /\ updates s = 0 /\ state_inv nm f s /\ better v = false
  | Returned _ _ k => k = [] \/ k = [x0]
  end.

(** The locals of the only outer iteration of a solve with an empty active
    set. *)
Definition frozen_inner (nm : Numerics) (f : LeastSquaresProblem) (x0 : Vec)
    (s : lm_state) (v : inner_vars) : Prop :=
  x_best s = x0 /\ updates s = 0 /\ state_inv nm f s /\
  Hmat v = mkMat 0 0 [] /\ Dvec v = mkMat 0 1 [] /\ better v = false.

(** ** Vocabulary of the further properties *)

(** The deltas that [ApplyUpdate] adds to coordinate [k], in the order of
    the active set. *)
Definition deltas_at (varIdx : Indices) (delta : Vec) (k : nat) : Vec :=
  (filter (fun vd => vd.1 = k) (zip varIdx delta)).*2.

(** [masking] in [ComputeJacobian]. *)
Definition masking (p : LeastSquaresProblem) : bool :=
  negb (Mat_empty (m_jacobianPattern p)).

(** The pattern, when there is one, has a column for every active
    variable. *)
Definition pattern_covers (p : LeastSquaresProblem) : Prop :=
  masking p = true ->
  Forall (fun var => var < cols (m_jacobianPattern p)) (m_varIdx p).

(** The [y] that [ComputeJacobian] works with and leaves. *)
Definition y_used (p : LeastSquaresProblem) (x y : Vec) : Vec :=
  match y with [] => call p x | _ => y end.

(** The slice for column [iv.1] and variable [iv.2]. *)
Definition slice_for (p : LeastSquaresProblem) (x y0 : Vec) (iv : nat * nat)
  : JacobianSlice :=
  {| sl_x := x; sl_y := y0; sl_var := iv.2; sl_col := iv.1;
     sl_mask := if masking p then Mat_col 0%Z (m_jacobianPattern p) iv.2 else [] |}.

(** The columns from [i] on, each with its variable, that go to thread [t]
    of [T]. *)
Definition dealt (T i : nat) (vars : Indices) (t : nat) : list (nat * nat) :=
  filter (fun iv => iv.1 mod T = t) (zip (seq i (length vars)) vars).

(** The queues that [ComputeJacobian] hands to its threads. *)
Definition queues (p : LeastSquaresProblem) (x y0 : Vec) : list JacobianSlices :=
  (fun t => slice_for p x y0 <$> dealt (m_diffThreads p) 0 (m_varIdx p) t)
    <$> seq 0 (m_diffThreads p).

(** Whether [a - b] has a result, and the result. *)
Definition sub_defined (a b : Vec) : bool :=
  match Mat_sub a b with Ok _ => true | _ => false end.

Definition sub_value (a b : Vec) : Vec :=
  match Mat_sub a b with Ok d => d | _ => [] end.

(** [DiffThread] has a result on the slice: the variable is within [x], and
    the residual at the perturbed point can be subtracted from [y]. *)
Definition runs_ok (p : LeastSquaresProblem) (sl : JacobianSlice) : Prop :=
  sl_var sl < length (sl_x sl) /\
  sub_defined (call p (perturb (sl_x sl) (sl_var sl) (m_diffStep p))) (sl_y sl) = true.

#[global] Instance runs_ok_dec p sl : Decision (runs_ok p sl) :=
  and_dec (decide (sl_var sl < length (sl_x sl)))
    (decide (sub_defined (call p (perturb (sl_x sl) (sl_var sl) (m_diffStep p)))
               (sl_y sl) = true)).

(** The same for the slice of variable [var] in a call on [x] and [y0]. *)
Definition slice_defined (p : LeastSquaresProblem) (x y0 : Vec) (var : nat) : Prop :=
  var < length x /\
  sub_defined (call p (perturb x var (m_diffStep p))) y0 = true.

(** The slice of variable [var] in a call on [x] and [y0] has its variable
    within [x] and a residual at the perturbed point as long as [y0]. *)
Definition slice_runs (p : LeastSquaresProblem) (x y0 : Vec) (var : nat) : Prop :=
  var < length x /\
  length (call p (perturb x var (m_diffStep p))) = length y0.

(** The column that [DiffThread] computes for a slice. *)
Definition slice_column (p : LeastSquaresProblem) (sl : JacobianSlice) : Vec :=
  (fun v => (v / m_diffStep p)%float)
    <$> sub_value (call p (perturb (sl_x sl) (sl_var sl) (m_diffStep p))) (sl_y sl).

(** The matrix after the slices of [q], one after the other. *)
Definition write_all (p : LeastSquaresProblem) (q : JacobianSlices) (J : Mat float)
  : Mat float :=
  foldl (fun J sl => Mat_write_col J (sl_col sl) (slice_column p sl)) J q.

Definition with_pattern (p : LeastSquaresProblem) (pattern : Mat Z) :=
  {| m_conds := m_conds p; m_vars := m_vars p; m_varIdx := m_varIdx p;
     m_jacobianPattern := pattern; m_diffStep := m_diffStep p;
     m_diffThreads := m_diffThreads p; call := call p;
     SetSolution := SetSolution p |}.

Definition outcome_map {A B} (g : A -> B) (m : outcome A) : outcome B :=
  match m with
  | Ok a => Ok (g a)
  | Throw w => Throw w
  | Fault => Fault
  end.

(** The most updates that [Solve] accepts, and the most trials of one outer
    iteration: [maxCount], or one when [maxCount] is zero. *)
Definition cap (alg : LevenbergMarquardtAlgorithm) : nat :=
  maxCount (m_term alg) `max` 1.

(** The test of the inner loop. *)
Definition pending (s : lm_state) (v : inner_vars) : bool :=
  negb (better v) && negb (converged s).

(** What holds of the locals of [Solve] called on [x0], at both loop heads. *)
Definition solve_inv (alg : LevenbergMarquardtAlgorithm) (nm : Numerics)
    (f : LeastSquaresProblem) (x0 : Vec) (s : lm_state) : Prop :=
  state_inv nm f s /\
  Forall (fun de => (0 <? de)%float = true) (derr s) /\
  length (x_best s) = length x0 /\
  (forall k, k ∉ m_varIdx f -> x_best s !! k = x0 !! k) /\
  (updates s = 0 /\ x_best s = x0 \/
   (e_best s <? rms nm (call f x0))%float = true) /\
  updates s <= cap alg /\
  (converged s = false -> updates s < cap alg).

Definition solve_cfg (alg : LevenbergMarquardtAlgorithm) (nm : Numerics)
    (f : LeastSquaresProblem) (x0 : Vec) (c : config) : Prop :=
  match c with
  | AtOuter s _ => solve_inv alg nm f x0 s
  | AtInner s v _ =>
      solve_inv alg nm f x0 s /\ trials v <= cap alg /\
      (pending s v = true -> trials v < cap alg)
  | Returned r _ k =>
      (r = false /\ k = []) \/
      exists s, solve_inv alg nm f x0 s /\ converged s = true /\
        k = [x_best s] /\ r = SetSolution f (x_best s)
  end.

(** A bound on the loop tests that are still to come. *)
Definition outer_bound (alg : LevenbergMarquardtAlgorithm) (s : lm_state) : nat :=
  if converged s then 1 else (cap alg + 2) * (cap alg - updates s) + 1.

Definition steps_left (alg : LevenbergMarquardtAlgorithm) (c : config) : nat :=
  match c with
  | AtOuter s _ => outer_bound alg s
  | AtInner s v _ =>
      if pending s v
      then (cap alg - trials v) + (cap alg + 2) * (cap alg - updates s - 1) + 2
      else 1 + outer_bound alg s
  | Returned _ _ _ => 0
  end.

(** The lines that [Solve] logs only when [m_verbose] is set. *)
Definition is_info (e : event) : bool :=
  match e with
  | Info_rule | Info_header | Info_row _ _ _ _ => true
  | _ => false
  end.

Definition mute (l : list event) : list event :=
  filter (fun e => is_info e = false) l.
Arguments mute : simpl never.

Definition quiet (alg : LevenbergMarquardtAlgorithm) : LevenbergMarquardtAlgorithm :=
  {| m_lambda := m_lambda alg; m_eta := m_eta alg; m_term := m_term alg;
     m_verbose := false |}.

Definition mute_cfg (c : config) : config :=
  match c with
  | AtOuter s l => AtOuter s (mute l)
  | AtInner s v l => AtInner s v (mute l)
  | Returned r l k => Returned r (mute l) k
  end.

Definition mute_result (r : solve_result) : solve_result :=
  {| ret := ret r; log := mute (log r); sink := sink r |}.

(** Further sample problems and runs. *)
Module Edge.
(** [planar] with its last variable named twice. *)
Definition revisit : LeastSquaresProblem := with_varIdx Samples.planar [2; 0; 2].

(** [planar] with all three variables active. *)
Definition all_three : LeastSquaresProblem := with_varIdx Samples.planar [0; 1; 2].

(** [planar] with only its first variable active. *)
Definition one_of_three : LeastSquaresProblem := with_varIdx Samples.planar [0].

(** One residual of two variables, the second active, with a pattern of one
    column. *)
Definition narrow : LeastSquaresProblem :=
  {| m_conds := 1; m_vars := 2; m_varIdx := [1];
     m_jacobianPattern := mkMat 1 1 [[1%Z]];
     m_diffStep := 0.5%float; m_diffThreads := 1;
     call := fun x => [(Samples.coord x 1 - 3)%float];
     SetSolution := fun _ => true |}.

(** Three residuals of one variable, declared as two. *)
Definition long3 : LeastSquaresProblem :=
  {| m_conds := 2; m_vars := 1; m_varIdx := [0];
     m_jacobianPattern := Samples.no_pattern;
     m_diffStep := 0.5%float; m_diffThreads := 1;
     call := fun x => [(Samples.coord x 0 - 3)%float; Samples.coord x 0; 1%float];
     SetSolution := fun _ => true |}.

Definition the_result (o : outcome (option solve_result)) : solve_result :=
  match o with
  | Ok (Some r) => r
  | _ => {| ret := false; log := []; sink := [] |}
  end.

(** [Solve] on [shift3] from 0, and on [one_of_three] from (1, 2, 3). *)
Definition descent_run : solve_result :=
  Eval vm_compute in
    the_result (Solve Samples.lm Reference.numerics Samples.shift3 16 [0%float]).
Definition partial_run : solve_result :=
  Eval vm_compute in
    the_result (Solve Samples.lm Reference.numerics one_of_three 16 [1; 2; 3]%float).
End Edge.

(** * Properties *)

(** ** Facts on binary64 comparison and subtraction *)

Module DoubleFacts.

Lemma digits2_size (m : positive) : digits2_pos m = Pos.size m.
Proof. induction m; simpl; congruence. Qed.

Lemma digits2_upper (m : positive) : (Z.pos m < 2 ^ Z.pos (digits2_pos m))%Z.
Proof.
  rewrite digits2_size.
  pose proof (Pos.size_gt m) as H.
  apply Pos2Z.pos_lt_pos in H. rewrite Pos2Z.inj_pow in H. exact H.
Qed.

Lemma digits2_lower (m : positive) : (2 ^ Z.pos (digits2_pos m) <= 2 * Z.pos m)%Z.
Proof.
  rewrite digits2_size.
  pose proof (Pos.size_le m) as H.
  apply Pos2Z.pos_le_pos in H. rewrite Pos2Z.inj_pow in H. exact H.
Qed.

Lemma iter_xO_double (m d : positive) : (2 * Z.pos m <= Z.pos (Pos.iter xO m d))%Z.
Proof.
  change (Pos.iter xO m d) with (shift_pos d m).
  rewrite shift_pos_correct, Z.pow_pos_fold.
  assert (2 ^ 1 <= 2 ^ Z.pos d)%Z as H by (apply Z.pow_le_mono_r; lia).
  change (2 ^ 1)%Z with 2%Z in H. nia.
Qed.

(** A canonical binary64 mantissa has at most 53 digits, and exactly 53 above
    the smallest exponent. *)
Lemma bounded_digits m e :
  bounded prec emax m e = true ->
  (-1074 <= e /\ Z.pos (digits2_pos m) <= 53 /\
   (-1074 < e -> Z.pos (digits2_pos m) = 53))%Z.
Proof.
  unfold bounded, canonical_mantissa, fexp, SpecFloat.emin, prec, emax.
  intros H. apply andb_prop in H as [H _]. apply Z.eqb_eq in H. lia.
Qed.

(** Of two canonical values, the one with the larger exponent has the larger
    mantissa once both are aligned on the smaller exponent. *)
Lemma canonical_exp_lt mx ex my ey d :
  bounded prec emax mx ex = true -> bounded prec emax my ey = true ->
  (ex < ey)%Z -> (Z.pos mx < Z.pos (Pos.iter xO my d))%Z.
Proof.
  intros Hx Hy Hlt.
  apply bounded_digits in Hx as (Hx0 & Hx1 & _).
  apply bounded_digits in Hy as (_ & _ & Hy2).
  pose proof (digits2_upper mx) as Ux.
  pose proof (digits2_lower my) as Ly.
  pose proof (iter_xO_double my d) as Hd.
  rewrite Hy2 in Ly by lia.
  assert (2 ^ Z.pos (digits2_pos mx) <= 2 ^ 53)%Z by (apply Z.pow_le_mono_r; lia).
  lia.
Qed.

Lemma binary_round_aux_sign sx mx ex lx :
  match binary_round_aux prec emax sx mx ex lx with
  | S754_zero s | S754_infinity s | S754_finite s _ _ => s = sx
  | S754_nan => True
  end.
Proof.
  unfold binary_round_aux.
  destruct (shr_fexp prec emax mx ex lx) as [mrs' e'].
  destruct (shr_fexp prec emax _ e' loc_Exact) as [mrs'' e''].
  destruct (shr_m mrs''); trivial.
  destruct (Z.leb e'' (emax - prec)); trivial.
Qed.

Lemma binary_normalize_pos z e :
  SFltb (S754_zero false) (binary_normalize prec emax z e false) = true ->
  (0 < z)%Z.
Proof.
  destruct z as [|m|m]; simpl; [discriminate | lia |].
  unfold binary_round.
  destruct (shl_align m e _) as [mz ez].
  pose proof (binary_round_aux_sign true (Z.pos mz) ez loc_Exact) as Hs.
  destruct (binary_round_aux prec emax true (Z.pos mz) ez loc_Exact);
    try subst s; cbv; discriminate.
Qed.

Lemma shl_align_same m e : shl_align m e e = (m, e).
Proof. unfold shl_align. now rewrite Z.sub_diag. Qed.

Lemma shl_align_lower m e e' :
  (e' < e)%Z -> exists d, shl_align m e e' = (Pos.iter xO m d, e').
Proof.
  intros H. unfold shl_align.
  destruct (Z.sub e' e) as [|d|d] eqn:E; try lia. now exists d.
Qed.

Lemma SFsub_pos_lt x y :
  valid_binary x = true -> valid_binary y = true ->
  SFltb (S754_zero false) (SF64sub x y) = true -> SFltb y x = true.
Proof.
  intros Vx Vy.
  destruct x as [sx|sx| |sx mx ex], y as [sy|sy| |sy my ey];
    try (try destruct sx; try destruct sy; cbv; congruence).
  simpl in Vx, Vy.
  unfold SF64sub, SFsub. intros H. apply binary_normalize_pos in H.
  unfold SFltb, SFcompare.
  change (PosDef.Pos.compare_cont Eq my mx) with (my ?= mx)%positive.
  destruct (Z.compare_spec ey ex) as [E|E|E].
  - subst ey. rewrite Z.min_id, !shl_align_same in H.
    destruct (Pos.compare_spec my mx) as [C|C|C], sx, sy;
      cbn [cond_Zopp fst CompOpp] in *; trivial; lia.
  - rewrite Z.min_r in H by lia. rewrite shl_align_same in H.
    destruct (shl_align_lower mx ex ey E) as [d Hd]. rewrite Hd in H.
    pose proof (canonical_exp_lt my ey mx ex d Vy Vx E).
    destruct sx, sy; cbn [cond_Zopp fst] in *; trivial; lia.
  - rewrite Z.min_l in H by lia. rewrite shl_align_same in H.
    destruct (shl_align_lower my ey ex E) as [d Hd]. rewrite Hd in H.
    pose proof (canonical_exp_lt mx ex my ey d Vx Vy E).
    destruct sx, sy; cbn [cond_Zopp fst] in *; trivial; lia.
Qed.

Lemma SFltb_irrefl x : SFltb x x = false.
Proof.
  destruct x as [s|s| |s m e]; try (destruct s; reflexivity); try reflexivity.
  unfold SFltb, SFcompare.
  change (PosDef.Pos.compare_cont Eq m m) with (m ?= m)%positive.
  rewrite Z.compare_refl, Pos.compare_refl. now destruct s.
Qed.

(** [a - b > 0] implies [b < a]. *)
Lemma sub_pos_lt (a b : float) :
  (0 <? a - b)%float = true -> (b <? a)%float = true.
Proof.
  rewrite !ltb_spec, sub_spec.
  change (Prim2SF 0) with (S754_zero false).
  apply SFsub_pos_lt; apply Prim2SF_valid.
Qed.

(** [a - a] is never positive, whatever [a] is. *)
Lemma sub_self_not_pos (a : float) : (0 <? a - a)%float = false.
Proof.
  destruct (0 <? a - a)%float eqn:E; trivial.
  apply sub_pos_lt in E. rewrite ltb_spec, SFltb_irrefl in E. discriminate.
Qed.

End DoubleFacts.

(** ** The outcome monad *)

Lemma bind_Ok {A B} (m : outcome A) (k : A -> outcome B) (b : B) :
  m ≫= k = Ok b -> exists a, m = Ok a /\ k a = Ok b.
Proof. destruct m; simpl; intros E; try discriminate. eauto. Qed.

(** ** SetActiveVars *)

Lemma all_below_false n varIdx :
  all_below n varIdx = false <-> exists var, var ∈ varIdx /\ n <= var.
Proof.
  induction varIdx as [|var rest IH]; simpl.
  - split; [discriminate | intros (v & Hv & _); inversion Hv].
  - destruct (decide (n <= var)) as [Hle|Hgt].
    + split; [intros _; exists var; split; [left | exact Hle] | trivial].
    + rewrite IH. split.
      * intros (v & Hv & Hn). exists v. split; [now right | exact Hn].
      * intros (v & Hv & Hn). apply elem_of_cons in Hv as [-> | Hv]; [lia | eauto].
Qed.

(** C9: [SetActiveVars] returns false exactly when some given index is at
    least [m_vars]; when it returns true the active set is the given list and
    nothing else of the problem changes; when it returns false the problem is
    left as it was. *)
Theorem SetActiveVars_spec (p : LeastSquaresProblem) (varIdx : Indices) :
  let r := SetActiveVars p varIdx in
  (r.1 = false <-> exists var, var ∈ varIdx /\ m_vars p <= var) /\
  (r.1 = true -> r.2 = with_varIdx p varIdx /\ m_varIdx r.2 = varIdx) /\
  (r.1 = false -> r.2 = p).
Proof.
  unfold SetActiveVars. rewrite <- all_below_false.
  destruct (all_below (m_vars p) varIdx); simpl; repeat split; congruence.
Qed.

(** ** ApplyUpdate *)

Lemma add_deltas_spec (varIdx : Indices) (delta : Vec) :
  forall (i : nat) (x : Vec),
    NoDup varIdx ->
    Forall (fun var => var < length x) varIdx ->
    i + length varIdx <= length delta ->
    exists x', add_deltas varIdx delta i x = Ok x' /\
      length x' = length x /\
      (forall k, k ∉ varIdx -> x' !! k = x !! k) /\
      (forall j var, varIdx !! j = Some var ->
         exists xv d, x !! var = Some xv /\ delta !! (i + j) = Some d /\
                      x' !! var = Some (xv + d)%float).
Proof.
  induction varIdx as [|var rest IH]; intros i x Hnd Hlt Hlen; simpl in *.
  - exists x. repeat split; trivial. intros j v Hj. inversion Hj.
  - apply NoDup_cons in Hnd as [Hnotin Hnd].
    apply Forall_cons in Hlt as [Hvar Hlt].
    destruct (lookup_lt_is_Some_2 x var Hvar) as [xv Hxv].
    destruct (lookup_lt_is_Some_2 delta i ltac:(lia)) as [d Hd].
    rewrite Hxv, Hd.
    destruct (IH (S i) (<[var := (xv + d)%float]> x) Hnd) as (x' & Hrun & Hl & Hout & Hin).
    { rewrite length_insert. exact Hlt. }
    { lia. }
    exists x'. rewrite length_insert in Hl. repeat split; trivial.
    + intros k Hk. apply not_elem_of_cons in Hk as [Hne Hk].
      rewrite (Hout k Hk). now apply list_lookup_insert_ne.
    + intros [|j] v Hj; simpl in Hj.
      * injection Hj as <-. exists xv, d. rewrite Nat.add_0_r.
        repeat split; trivial.
        rewrite (Hout var Hnotin). now apply list_lookup_insert_eq.
      * destruct (Hin j v Hj) as (xv' & d' & Hx1 & Hd1 & Hx2).
        assert (var <> v) as Hne.
        { intros ->. apply Hnotin. eapply list_elem_of_lookup_2, Hj. }
        rewrite list_lookup_insert_ne in Hx1 by exact Hne.
        exists xv', d'. replace (i + S j) with (S i + j) by lia. auto.
Qed.

(** Distinct indices below [n] are at most [n] many. *)
Lemma NoDup_below_length (l : Indices) (n : nat) :
  NoDup l -> Forall (fun var => var < n) l -> length l <= n.
Proof.
  intros Hnd Hlt.
  assert (length l <= length (seq 0 n)) as H; [| now rewrite length_seq in H].
  apply submseteq_length, NoDup_submseteq; trivial.
  intros v Hv. apply elem_of_seq. rewrite Forall_forall in Hlt.
  specialize (Hlt v Hv). lia.
Qed.

(** C4: for a base vector of length [m_vars] and an update as long as the
    active set (a set of distinct indices below [m_vars]), [ApplyUpdate]
    returns a vector equal to [x0] at every inactive coordinate and to
    [x0[i] + delta[j]] at coordinate [i = active[j]]. *)
Theorem ApplyUpdate_spec (p : LeastSquaresProblem) (x0 delta : Vec) :
  length x0 = m_vars p ->
  Forall (fun var => var < m_vars p) (m_varIdx p) ->
  NoDup (m_varIdx p) ->
  length delta = length (m_varIdx p) ->
  exists x, ApplyUpdate p x0 delta = Ok x /\
    length x = length x0 /\
    (forall i, i ∉ m_varIdx p -> x !! i = x0 !! i) /\
    (forall j i, m_varIdx p !! j = Some i ->
       exists xi d, x0 !! i = Some xi /\ delta !! j = Some d /\
                    x !! i = Some (xi + d)%float).
Proof.
  intros Hx Hlt Hnd Hd.
  pose proof (NoDup_below_length _ _ Hnd Hlt) as Hn.
  unfold ApplyUpdate. rewrite decide_True by lia.
  rewrite <- Hx in Hlt.
  destruct (add_deltas_spec (m_varIdx p) delta 0 x0 Hnd Hlt ltac:(lia))
    as (x & Hrun & Hl & Hout & Hin).
  exists x. repeat split; trivial.
Qed.

Lemma ApplyUpdate_spec_witness :
  exists x, ApplyUpdate Samples.planar [1; 2; 3]%float [10; 20]%float = Ok x /\
    length x = 3 /\
    (forall i, i ∉ [0; 2] -> x !! i = [1; 2; 3]%float !! i) /\
    (forall j i, [0; 2] !! j = Some i ->
       exists xi d, [1; 2; 3]%float !! i = Some xi /\ [10; 20]%float !! j = Some d /\
                    x !! i = Some (xi + d)%float).
Proof.
  apply (ApplyUpdate_spec Samples.planar [1; 2; 3]%float [10; 20]%float).
  - reflexivity.
  - repeat constructor.
  - apply (bool_decide_unpack _). vm_compute. exact I.
  - reflexivity.
Defined.

(** ** Matrices by columns *)


Lemma Mat_zeros_wf m n : Mat_wf (Mat_zeros m n).
Proof.
  split; simpl; [apply length_replicate |].
  apply Forall_replicate, length_replicate.
Qed.

Lemma Mat_write_col_dims M k v :
  rows (Mat_write_col M k v) = rows M /\ cols (Mat_write_col M k v) = cols M.
Proof. unfold Mat_write_col. now destruct (decide _). Qed.

Lemma Mat_write_col_wf M k v : Mat_wf M -> Mat_wf (Mat_write_col M k v).
Proof.
  intros [Hr Hc]. unfold Mat_write_col. destruct (decide _) as [Hv|]; [|now split].
  split; simpl.
  - rewrite length_zip_with_l_eq; trivial. lia.
  - apply Forall_forall. intros r Hr'.
    apply list_elem_of_lookup in Hr' as [i Hi].
    apply lookup_zip_with_Some in Hi as (r0 & a & -> & Hr0 & _).
    rewrite length_insert. rewrite Forall_forall in Hc.
    apply Hc. eapply list_elem_of_lookup_2, Hr0.
Qed.

Lemma Mat_col_write_eq M k v :
  Mat_wf M -> k < cols M -> length v = rows M ->
  Mat_col 0%float (Mat_write_col M k v) k = v.
Proof.
  intros [Hr Hc] Hk Hv. unfold Mat_write_col. rewrite decide_True by exact Hv.
  unfold Mat_col. simpl. apply list_eq. intros i.
  rewrite list_lookup_fmap, lookup_zip_with.
  destruct (elems M !! i) as [r|] eqn:Er; simpl.
  - destruct (v !! i) as [a|] eqn:Ea; simpl.
    + rewrite list_lookup_insert_eq; trivial.
      rewrite Forall_forall in Hc. rewrite (Hc r); trivial.
      eapply list_elem_of_lookup_2, Er.
    + apply lookup_ge_None in Ea. apply lookup_lt_Some in Er. lia.
  - symmetry. apply lookup_ge_None. apply lookup_ge_None in Er. lia.
Qed.

Lemma Mat_col_write_ne M k k' v :
  Mat_wf M -> k <> k' ->
  Mat_col 0%float (Mat_write_col M k v) k' = Mat_col 0%float M k'.
Proof.
  intros [Hr _] Hne. unfold Mat_write_col. destruct (decide _) as [Hv|]; trivial.
  unfold Mat_col. simpl. apply list_eq. intros i.
  rewrite !list_lookup_fmap, lookup_zip_with.
  destruct (elems M !! i) as [r|] eqn:Er; simpl; trivial.
  destruct (v !! i) as [a|] eqn:Ea; simpl.
  - now rewrite list_lookup_insert_ne.
  - apply lookup_ge_None in Ea. apply lookup_lt_Some in Er. lia.
Qed.

(** Two well-formed matrices of the same shape with the same columns are
    equal. *)
Lemma Mat_ext (A B : Mat float) :
  Mat_wf A -> Mat_wf B -> rows A = rows B -> cols A = cols B ->
  (forall k, k < cols A -> Mat_col 0%float A k = Mat_col 0%float B k) ->
  A = B.
Proof.
  destruct A as [ra ca ea], B as [rb cb eb]. unfold Mat_wf, Mat_col. simpl.
  intros [Hra Hca] [Hrb Hcb] <- <- Hcol. f_equal.
  apply list_eq. intros i.
  destruct (ea !! i) as [r|] eqn:Ea, (eb !! i) as [r'|] eqn:Eb.
  - f_equal. apply list_eq. intros k.
    assert (length r = ca) as Lr
      by (rewrite Forall_forall in Hca; eapply Hca, list_elem_of_lookup_2, Ea).
    assert (length r' = ca) as Lr'
      by (rewrite Forall_forall in Hcb; eapply Hcb, list_elem_of_lookup_2, Eb).
    destruct (decide (k < ca)) as [Hk|Hk].
    + specialize (Hcol k Hk). apply (f_equal (fun l => l !! i)) in Hcol.
      rewrite !list_lookup_fmap, Ea, Eb in Hcol. simpl in Hcol.
      destruct (lookup_lt_is_Some_2 r k ltac:(lia)) as [a Ha].
      destruct (lookup_lt_is_Some_2 r' k ltac:(lia)) as [b Hb].
      rewrite Ha, Hb in *. simpl in Hcol. congruence.
    + rewrite !(proj2 (lookup_ge_None _ _)); trivial; lia.
  - apply lookup_lt_Some in Ea. apply lookup_ge_None in Eb. lia.
  - apply lookup_lt_Some in Eb. apply lookup_ge_None in Ea. lia.
  - reflexivity.
Qed.

(** ** The forward-difference columns *)


Lemma fmap_zip_with_compose {A B C D} (g : C -> D) (f : A -> B -> C) l k :
  g <$> zip_with f l k = zip_with (fun a b => g (f a b)) l k.
Proof. revert k. induction l; intros [|b k]; simpl; f_equal; auto. Qed.

Section Columns.
Context (p : LeastSquaresProblem) (x y0 : Vec).
Hypothesis call_length : forall v, length (call p v) = m_conds p.
Hypothesis y0_length : length y0 = m_conds p.



Lemma column_of_length k : length (column_of p x y0 k) = m_conds p.
Proof.
  unfold column_of, fd_against. rewrite length_zip_with, call_length, y0_length. lia.
Qed.

Lemma DiffThread_slice_ok sl J :
  slice_ok p x y0 sl ->
  DiffThread_slice p sl J = Ok (Mat_write_col J (sl_col sl) (column_of p x y0 (sl_col sl))).
Proof using call_length y0_length.
  intros (Hx & Hy & Hv & Hc). unfold DiffThread_slice, Mat_sub.
  destruct (lookup_lt_is_Some_2 _ _ Hv) as [xv Hxv].
  rewrite Hx, Hxv, Hy.
  rewrite decide_True by (now rewrite call_length, y0_length).
  cbn [mbind outcome_bind]. do 2 f_equal.
  unfold column_of, fd_against, perturb. rewrite Hc. simpl.
  rewrite Hxv. apply fmap_zip_with_compose.
Qed.


Lemma Jinv_step (rem rem' : JacobianSlice -> Prop) sl J :
  slice_ok p x y0 sl ->
  (forall sl', rem sl' -> sl' = sl \/ rem' sl') ->
  Jinv p x y0 rem J ->
  Jinv p x y0 rem' (Mat_write_col J (sl_col sl) (column_of p x y0 (sl_col sl))).
Proof using call_length y0_length.
  intros Hok Hrem (Hwf & Hr & Hc & Hcols).
  destruct (Mat_write_col_dims J (sl_col sl) (column_of p x y0 (sl_col sl))) as [Er Ec].
  split; [now apply Mat_write_col_wf|]. rewrite Er, Ec. do 2 (split; trivial).
  intros k Hk. destruct (decide (sl_col sl = k)) as [<-|Hne].
  - left. apply Mat_col_write_eq; trivial; [lia | now rewrite column_of_length].
  - rewrite Mat_col_write_ne by trivial.
    destruct (Hcols k Hk) as [Hdone | (sl' & Hin & Hcol)]; [now left|].
    destruct (Hrem sl' Hin) as [-> | Hin']; [contradiction | right; eauto].
Qed.

Lemma Jinv_weaken (rem rem' : JacobianSlice -> Prop) J :
  (forall sl, rem sl -> rem' sl) -> Jinv p x y0 rem J -> Jinv p x y0 rem' J.
Proof using Type.
  intros Hsub (Hwf & Hr & Hc & Hcols). repeat split; trivial; try apply Hwf.
  intros k Hk. destruct (Hcols k Hk) as [?|(sl & ? & ?)]; [now left | right; eauto].
Qed.

(** One thread, run to the end of its queue. *)
Lemma DiffThread_Jinv (q : JacobianSlices) :
  forall (rest : JacobianSlice -> Prop) J,
    Forall (slice_ok p x y0) q ->
    Jinv p x y0 (fun sl => sl ∈ q \/ rest sl) J ->
    exists J', DiffThread p q J = Ok J' /\ Jinv p x y0 rest J'.
Proof using call_length y0_length.
  induction q as [|sl q IH]; intros rest J Hok HJ; simpl.
  - exists J. split; trivial. eapply Jinv_weaken, HJ.
    intros sl [Hin|?]; [inversion Hin | trivial].
  - apply Forall_cons in Hok as [Hsl Hok].
    rewrite DiffThread_slice_ok by trivial. simpl.
    apply IH; trivial. eapply Jinv_step, HJ; trivial.
    intros sl' [Hin|?]; [|auto].
    apply elem_of_cons in Hin as [->|?]; auto.
Qed.

(** The threads one after the other. *)
Lemma join_all_Jinv (threads : list JacobianSlices) :
  forall J,
    Forall (Forall (slice_ok p x y0)) threads ->
    Jinv p x y0 (fun sl => exists q, q ∈ threads /\ sl ∈ q) J ->
    exists J', join_all p threads J = Ok J' /\ Jinv p x y0 (fun _ => False) J'.
Proof using call_length y0_length.
  induction threads as [|q threads IH]; intros J Hok HJ; simpl.
  - exists J. split; trivial. eapply Jinv_weaken, HJ.
    intros sl (q & Hq & _). inversion Hq.
  - apply Forall_cons in Hok as [Hq Hok].
    destruct (DiffThread_Jinv q (fun sl => exists q', q' ∈ threads /\ sl ∈ q') J Hq)
      as (J1 & -> & HJ1).
    { eapply Jinv_weaken, HJ. intros sl (q' & Hq' & Hin).
      apply elem_of_cons in Hq' as [->|?]; [now left | right; eauto]. }
    simpl. now apply IH.
Qed.

(** The threads under any schedule. *)
Lemma run_threads_Jinv (sched : list nat) :
  forall (queues : list JacobianSlices) J,
    Forall (Forall (slice_ok p x y0)) queues ->
    Jinv p x y0 (fun sl => exists q, q ∈ queues /\ sl ∈ q) J ->
    exists pending J',
      run_threads p sched queues J = Ok (pending, J') /\
      Jinv p x y0 (fun sl => exists q, q ∈ pending /\ sl ∈ q) J'.
Proof using call_length y0_length.
  induction sched as [|k sched IH]; intros queues J Hok HJ; simpl.
  - eauto.
  - destruct (queues !! k) as [[|sl rest]|] eqn:Ek; try now apply IH.
    assert (Forall (slice_ok p x y0) (sl :: rest)) as Hq
      by (rewrite Forall_forall in Hok; eapply Hok, list_elem_of_lookup_2, Ek).
    apply Forall_cons in Hq as [Hsl Hrest].
    rewrite DiffThread_slice_ok by trivial. simpl.
    apply IH.
    + apply Forall_insert; trivial.
    + eapply Jinv_step, HJ; trivial.
      intros sl' (q & Hq & Hin).
      apply list_elem_of_lookup in Hq as [j Hj].
      destruct (decide (j = k)) as [->|Hne].
      * rewrite Ek in Hj. injection Hj as <-.
        apply elem_of_cons in Hin as [->|Hin]; [now left | right].
        exists rest. split; trivial.
        eapply list_elem_of_lookup_2, list_lookup_insert_eq, lookup_lt_Some, Ek.
      * right. exists q. split; trivial.
        eapply list_elem_of_lookup_2. rewrite list_lookup_insert_ne; eauto.
Qed.


Lemma covered_alter (qs : list JacobianSlices) t sl sl' q :
  q ∈ qs -> sl' ∈ q ->
  exists q', q' ∈ alter (fun s => s ++ [sl]) t qs /\ sl' ∈ q'.
Proof using Type.
  intros Hq Hin. apply list_elem_of_lookup in Hq as [j Hj].
  destruct (decide (t = j)) as [->|Hne].
  - exists (q ++ [sl]). split; [|apply elem_of_app; now left].
    eapply list_elem_of_lookup_2. rewrite list_lookup_alter_eq, Hj. reflexivity.
  - exists q. split; trivial.
    eapply list_elem_of_lookup_2. rewrite list_lookup_alter_ne; eauto.
Qed.

(** Dealing the variables [vars], which follow [prefix] in the active set. *)
Lemma make_slices_ok (masking : bool) (vars : Indices) :
  forall (prefix : Indices) (qs : list JacobianSlices),
    m_varIdx p = prefix ++ vars ->
    0 < m_diffThreads p -> length qs = m_diffThreads p ->
    Forall (fun var => var < length x) vars ->
    (masking = true -> Forall (fun var => var < cols (m_jacobianPattern p)) vars) ->
    Forall (Forall (slice_ok p x y0)) qs ->
    (forall k, k < length prefix -> exists sl q, q ∈ qs /\ sl ∈ q /\ sl_col sl = k) ->
    exists qs', make_slices p masking x y0 vars (length prefix) qs = Ok qs' /\
      Forall (Forall (slice_ok p x y0)) qs' /\
      (forall k, k < length (m_varIdx p) ->
         exists sl q, q ∈ qs' /\ sl ∈ q /\ sl_col sl = k).
Proof using Type.
  clear call_length y0_length.
  induction vars as [|var rest IH]; intros prefix qs Hsplit HT Hlen Hx Hmask Hok Hcov; simpl.
  - exists qs. rewrite Hsplit, app_nil_r. auto.
  - rewrite decide_False by lia.
    apply Forall_cons in Hx as [Hvar Hx].
    assert (exists mask, (if masking then pattern_col (m_jacobianPattern p) var else Ok [])
                         = Ok mask) as [mask ->].
    { destruct masking; [|eauto]. specialize (Hmask eq_refl).
      apply Forall_cons in Hmask as [Hv _]. unfold pattern_col.
      rewrite decide_True by exact Hv. eauto. }
    simpl.
    set (sl := {| sl_x := x; sl_y := y0; sl_var := var; sl_col := length prefix;
                  sl_mask := mask |}).
    set (t := length prefix mod m_diffThreads p).
    assert (t < length qs) as Ht by (rewrite Hlen; apply Nat.mod_upper_bound; lia).
    destruct (lookup_lt_is_Some_2 qs t Ht) as [qt Hqt].
    assert (slice_ok p x y0 sl) as Hsl.
    { repeat split; trivial. simpl. rewrite Hsplit. apply list_lookup_middle. reflexivity. }
    replace (S (length prefix)) with (length (prefix ++ [var]))
      by (rewrite length_app; simpl; lia).
    apply IH; trivial.
    + now rewrite <- app_assoc.
    + now rewrite length_alter.
    + intros Hm. specialize (Hmask Hm). now apply Forall_cons in Hmask as [_ ?].
    + apply Forall_alter; trivial. intros q _ Hq. apply Forall_app. split; auto.
    + intros k Hk. rewrite length_app in Hk. simpl in Hk.
      destruct (decide (k = length prefix)) as [->|Hne].
      * exists sl, (qt ++ [sl]). repeat split; [|apply elem_of_app; right; left].
        eapply list_elem_of_lookup_2. rewrite list_lookup_alter_eq, Hqt. reflexivity.
      * destruct (Hcov k ltac:(lia)) as (sl' & q & Hq & Hin & Hc).
        destruct (covered_alter qs t sl sl' q Hq Hin) as (q' & Hq' & Hin').
        eauto.
Qed.

End Columns.


Lemma Jacobian_setup_ok p x y :
  well_formed p x ->
  let y0 := match y with [] => call p x | _ => y end in
  length y0 = m_conds p ->
  exists slices,
    Jacobian_setup p x y
      = Ok (Mat_zeros (m_conds p) (length (m_varIdx p)), y0, slices) /\
    Forall (Forall (slice_ok p x y0)) slices /\
    Jinv p x y0 (fun sl => exists q, q ∈ slices /\ sl ∈ q)
      (Mat_zeros (m_conds p) (length (m_varIdx p))).
Proof.
  intros [HT _ Hx Hact Hcall Hpat] y0 Hy0. unfold Jacobian_setup. fold y0.
  destruct (make_slices_ok p x y0 (negb (Mat_empty (m_jacobianPattern p)))
              (m_varIdx p) [] (replicate (m_diffThreads p) []))
    as (slices & Hrun & Hok & Hcov); trivial.
  - apply length_replicate.
  - now rewrite Hx.
  - intros Hm. destruct Hpat as [He|Hc]; [rewrite He in Hm; discriminate|].
    now rewrite Hc.
  - apply Forall_replicate. constructor.
  - simpl. intros k Hk. lia.
  - simpl in Hrun. rewrite Hrun. simpl. exists slices. repeat split; trivial.
    + apply Mat_zeros_wf.
    + apply Mat_zeros_wf.
    + intros k Hk. right. destruct (Hcov k Hk) as (sl & q & ? & ? & ?). eauto.
Qed.

Lemma reference_jacobian_wf p x : Mat_wf (reference_jacobian p x).
Proof.
  split; simpl.
  - now rewrite length_fmap, length_seq.
  - apply Forall_fmap, Forall_forall. intros i _. simpl. apply length_fmap.
Qed.

Lemma reference_jacobian_col p x k var :
  (forall v, length (call p v) = m_conds p) ->
  m_varIdx p !! k = Some var ->
  Mat_col 0%float (reference_jacobian p x) k = forward_difference p x var.
Proof.
  intros Hcall Hk. unfold Mat_col, reference_jacobian. simpl.
  apply list_eq. intros i. rewrite !list_lookup_fmap.
  assert (length (forward_difference p x var) = m_conds p) as Hl.
  { unfold forward_difference. rewrite length_zip_with, !Hcall. lia. }
  destruct (decide (i < m_conds p)) as [Hi|Hi].
  - rewrite lookup_seq_lt by exact Hi. simpl.
    rewrite list_lookup_fmap, Hk. simpl.
    destruct (lookup_lt_is_Some_2 (forward_difference p x var) i ltac:(lia)) as [a Ha].
    now rewrite Ha.
  - rewrite lookup_seq_ge by lia. simpl. symmetry. apply lookup_ge_None. lia.
Qed.

(** Once no slice is left, the matrix is the reference. *)
Lemma Jinv_done_reference p x J :
  (forall v, length (call p v) = m_conds p) ->
  Jinv p x (call p x) (fun _ => False) J -> J = reference_jacobian p x.
Proof.
  intros Hcall (Hwf & Hr & Hc & Hcols).
  apply Mat_ext; trivial; [apply reference_jacobian_wf|].
  intros k Hk. rewrite Hc in Hk.
  destruct (Hcols k Hk) as [Hdone|(? & [] & _)]. rewrite Hdone.
  destruct (lookup_lt_is_Some_2 _ _ Hk) as [var Hvar].
  rewrite (reference_jacobian_col p x k var Hcall Hvar).
  unfold column_of. now rewrite Hvar.
Qed.

Lemma all_joined_no_slice (pending : list JacobianSlices) sl :
  all_joined pending -> ~ (exists q, q ∈ pending /\ sl ∈ q).
Proof.
  unfold all_joined. rewrite Forall_forall. intros H (q & Hq & Hin).
  rewrite (H q Hq) in Hin. inversion Hin.
Qed.

(** C2, as amended: for a well-formed problem with at least one worker
    thread and [x] of length [m_vars], with [y] empty or the residual at
    [x], every schedule of the threads returns; once all threads have
    joined, column [k] of [J] is exactly [(f(x + h e_var) - f(x)) / h] for
    the [k]-th active variable [var], and [J] is the matrix of the
    single-threaded reference, whatever the number of threads and the
    schedule; [ComputeJacobian] itself returns that matrix. *)
Theorem ComputeJacobian_forward_difference (p : LeastSquaresProblem)
    (sched : list nat) (x y : Vec) :
  well_formed p x ->
  y = [] \/ y = call p x ->
  exists pending r,
    ComputeJacobian_sched p sched x y = Ok (pending, r) /\
    (all_joined pending ->
       jac r = reference_jacobian p x /\
       forall k var, m_varIdx p !! k = Some var ->
         Mat_col 0%float (jac r) k = forward_difference p x var) /\
    ComputeJacobian p x y
      = Ok {| jac := reference_jacobian p x; y_io := call p x; self := p |}.
Proof.
  intros Hwf Hy.
  assert (match y with [] => call p x | _ => y end = call p x) as Ey
    by (destruct Hy as [->| ->]; [trivial | now destruct (call p x)]).
  pose proof (wf_call p x Hwf) as Hcall.
  destruct (Jacobian_setup_ok p x y Hwf) as (slices & Hset & Hok & Hinv);
    [rewrite Ey; apply Hcall|].
  rewrite Ey in Hset, Hok, Hinv.
  destruct (run_threads_Jinv p x (call p x) Hcall (Hcall x) sched slices _ Hok Hinv)
    as (pending & J' & Hrun & HJ').
  destruct (join_all_Jinv p x (call p x) Hcall (Hcall x) slices _ Hok Hinv)
    as (J'' & Hjoin & HJ'').
  exists pending, {| jac := J'; y_io := call p x; self := p |}.
  unfold ComputeJacobian_sched, ComputeJacobian. rewrite Hset. simpl.
  rewrite Hrun, Hjoin. simpl. split; [|split].
  - reflexivity.
  - intros Hjoined.
    assert (J' = reference_jacobian p x) as ->.
    { apply Jinv_done_reference; trivial. eapply Jinv_weaken, HJ'.
      intros sl Hsl. exact (all_joined_no_slice pending sl Hjoined Hsl). }
    split; trivial. intros k var Hk. now apply reference_jacobian_col.
  - now rewrite (Jinv_done_reference p x J'' Hcall HJ'').
Qed.

Lemma planar_well_formed : well_formed Samples.planar [1; 2; 3]%float.
Proof.
  split; simpl; try lia; try reflexivity.
  - repeat constructor.
  - now left.
Qed.

Lemma ComputeJacobian_forward_difference_witness :
  exists pending r,
    ComputeJacobian_sched Samples.planar [1; 0] [1; 2; 3]%float [] = Ok (pending, r) /\
    (all_joined pending ->
       jac r = reference_jacobian Samples.planar [1; 2; 3]%float /\
       forall k var, m_varIdx Samples.planar !! k = Some var ->
         Mat_col 0%float (jac r) k
         = forward_difference Samples.planar [1; 2; 3]%float var) /\
    ComputeJacobian Samples.planar [1; 2; 3]%float []
      = Ok {| jac := reference_jacobian Samples.planar [1; 2; 3]%float;
              y_io := call Samples.planar [1; 2; 3]%float;
              self := Samples.planar |}.
Proof.
  apply (ComputeJacobian_forward_difference Samples.planar [1; 0] [1; 2; 3]%float []).
  - exact planar_well_formed.
  - left. reflexivity.
Defined.

(** C2 as stated fails for the thread count zero: dealing the first active
    variable computes [i % m_diffThreads], a division by zero, under every
    schedule. *)
Lemma ComputeJacobian_no_thread_faults :
  ComputeJacobian Samples.shift3_unthreaded [0%float] [] = Fault /\
  ComputeJacobian_sched Samples.shift3_unthreaded [] [0%float] [] = Fault.
Proof. split; reflexivity. Qed.

(** C1: the pattern of [shift3_masked] is zero at row 0 of variable 0, yet
    the entry [(0, 0)] of the computed Jacobian is the forward difference 1,
    not the 0 it was initialised to: [DiffThread] writes the whole column
    and never reads the mask of the slice. *)
Theorem ComputeJacobian_writes_masked_entry :
  Mat_col 0%Z (m_jacobianPattern Samples.shift3_masked) 0 = [0%Z] /\
  exists r, ComputeJacobian Samples.shift3_masked [0%float] [] = Ok r /\
    Mat_at (jac r) 0 0 = 1%float /\
    (Mat_at (jac r) 0 0 =? 0)%float = false.
Proof.
  split; [reflexivity|]. eexists. split; [reflexivity|]. split; reflexivity.
Qed.

(** ** The in/out argument of ComputeJacobian *)

Lemma ComputeJacobian_Ok p x y r :
  ComputeJacobian p x y = Ok r ->
  y_io r = match y with [] => call p x | _ => y end /\ self r = p.
Proof.
  unfold ComputeJacobian, Jacobian_setup. intros E.
  apply bind_Ok in E as ([[J y0] slices] & E1 & E2).
  apply bind_Ok in E1 as (qs & _ & E1). injection E1 as <- <- <-.
  apply bind_Ok in E2 as (J' & _ & E2). injection E2 as <-. now split.
Qed.

(** C10: for a well-formed problem and a [y] that is empty or as long as
    the residual, [ComputeJacobian] returns; the [y] it leaves is [f(x)] when
    the caller's was empty and the caller's own otherwise; every column of
    the matrix is the forward difference against that [y]; and the receiver,
    with its active set, pattern and step, is the one it was called on. *)
Theorem ComputeJacobian_y_in_out (p : LeastSquaresProblem) (x y : Vec) :
  well_formed p x ->
  y = [] \/ length y = m_conds p ->
  exists r, ComputeJacobian p x y = Ok r /\
    y_io r = match y with [] => call p x | _ => y end /\
    self r = p /\
    forall k var, m_varIdx p !! k = Some var ->
      Mat_col 0%float (jac r) k
      = zip_with (fun a b => ((a - b) / m_diffStep p)%float)
          (call p (perturb x var (m_diffStep p))) (y_io r).
Proof.
  intros Hwf Hy.
  pose proof (wf_call p x Hwf) as Hcall.
  set (y0 := match y with [] => call p x | _ => y end).
  assert (length y0 = m_conds p) as Hy0.
  { subst y0. destruct Hy as [->|Hy]; [apply Hcall | now destruct y]. }
  destruct (Jacobian_setup_ok p x y Hwf Hy0) as (slices & Hset & Hok & Hinv).
  destruct (join_all_Jinv p x y0 Hcall Hy0 slices _ Hok Hinv)
    as (J' & Hjoin & (_ & _ & _ & Hcols)).
  exists {| jac := J'; y_io := y0; self := p |}.
  unfold ComputeJacobian. fold y0 in Hset. rewrite Hset. simpl. rewrite Hjoin. simpl.
  repeat split. intros k var Hk.
  destruct (Hcols k (lookup_lt_Some _ _ _ Hk)) as [->|(? & [] & _)].
  unfold column_of. now rewrite Hk.
Qed.

Lemma ComputeJacobian_y_in_out_witness :
  exists r, ComputeJacobian Samples.planar [1; 2; 3]%float [7; 8]%float = Ok r /\
    y_io r = [7; 8]%float /\
    self r = Samples.planar /\
    forall k var, m_varIdx Samples.planar !! k = Some var ->
      Mat_col 0%float (jac r) k
      = zip_with (fun a b => ((a - b) / m_diffStep Samples.planar)%float)
          (call Samples.planar
             (perturb [1; 2; 3]%float var (m_diffStep Samples.planar)))
          (y_io r).
Proof.
  apply (ComputeJacobian_y_in_out Samples.planar [1; 2; 3]%float [7; 8]%float).
  - exact planar_well_formed.
  - right. reflexivity.
Defined.

(** ** The solver: steps and runs *)

Section SolveFacts.
Context (alg : LevenbergMarquardtAlgorithm) (nm : Numerics) (f : LeastSquaresProblem).

Lemma trial_body_unfold s v x_delta x_try :
  propose nm s v = Ok x_delta ->
  ApplyUpdate f (x_best s) x_delta = Ok x_try ->
  trial_body alg nm f s v
  = Ok ((after_trial alg nm f s v x_delta x_try).1,
        (after_trial alg nm f s v x_delta x_try).2,
        not_responsive (Mat_diag (Hmat v)) 0, ill_posed nm v x_delta).
Proof. intros E1 E2. unfold trial_body. rewrite E1. simpl. rewrite E2. reflexivity. Qed.

Lemma trial_body_Ok s v s' v' w ill :
  trial_body alg nm f s v = Ok (s', v', w, ill) ->
  exists x_delta x_try,
    propose nm s v = Ok x_delta /\
    ApplyUpdate f (x_best s) x_delta = Ok x_try /\
    (s', v') = after_trial alg nm f s v x_delta x_try /\
    w = not_responsive (Mat_diag (Hmat v)) 0 /\
    ill = ill_posed nm v x_delta.
Proof.
  intros E. unfold trial_body in E.
  apply bind_Ok in E as (xd & E1 & E). apply bind_Ok in E as (xt & E2 & E).
  injection E as <- <- <- <-. exists xd, xt. auto.
Qed.

(** A trial that is not ill-posed has logged no warning. *)
Lemma ill_posed_false v x_delta :
  ill_posed nm v x_delta = false -> not_responsive (Mat_diag (Hmat v)) 0 = [].
Proof.
  unfold ill_posed. intros E. apply orb_false_iff in E as [E _].
  apply bool_decide_eq_false in E.
  destruct (not_responsive (Mat_diag (Hmat v)) 0); [reflexivity | now destruct E].
Qed.

Lemma trial_unfold s v l x_delta x_try :
  propose nm s v = Ok x_delta ->
  ApplyUpdate f (x_best s) x_delta = Ok x_try ->
  trial alg nm f s v l =
    if ill_posed nm v x_delta
    then Ok (Returned false
               (l ++ not_responsive (Mat_diag (Hmat v)) 0 ++ [Error "problem ill-posed"]) [])
    else Ok (AtInner (after_trial alg nm f s v x_delta x_try).1
               (after_trial alg nm f s v x_delta x_try).2 l).
Proof.
  intros E1 E2. unfold trial. rewrite (trial_body_unfold s v x_delta x_try E1 E2).
  simpl. destruct (ill_posed nm v x_delta) eqn:Ei; [reflexivity|].
  now rewrite (ill_posed_false v x_delta Ei), app_nil_r.
Qed.

Lemma trial_Ok s v l c :
  trial alg nm f s v l = Ok c ->
  exists x_delta x_try,
    propose nm s v = Ok x_delta /\
    ApplyUpdate f (x_best s) x_delta = Ok x_try /\
    c = if ill_posed nm v x_delta
        then Returned false
               (l ++ not_responsive (Mat_diag (Hmat v)) 0 ++ [Error "problem ill-posed"]) []
        else AtInner (after_trial alg nm f s v x_delta x_try).1
               (after_trial alg nm f s v x_delta x_try).2 l.
Proof.
  intros E. pose proof E as E'. unfold trial in E'.
  apply bind_Ok in E' as ([[[s' v'] w] ill] & Eb & _).
  apply trial_body_Ok in Eb as (xd & xt & E1 & E2 & _ & _ & _).
  exists xd, xt. rewrite (trial_unfold s v l xd xt E1 E2) in E.
  repeat split; trivial.
  destruct (ill_posed nm v xd); now injection E.
Qed.

(** A step from the inner loop head to the inner loop head is a trial that
    was not ill-posed. *)
Lemma step_inner_inner s v l s' v' l' :
  step alg nm f (AtInner s v l) = Ok (AtInner s' v' l') ->
  better v = false /\ converged s = false /\ l' = l /\
  exists x_delta x_try,
    propose nm s v = Ok x_delta /\
    ApplyUpdate f (x_best s) x_delta = Ok x_try /\
    ill_posed nm v x_delta = false /\
    (s', v') = after_trial alg nm f s v x_delta x_try.
Proof.
  simpl. destruct (better v), (converged s); simpl; try discriminate.
  intros E. unfold catch in E.
  destruct (trial alg nm f s v l) as [c|w|] eqn:Et; try discriminate.
  injection E as ->. apply trial_Ok in Et as (xd & xt & E1 & E2 & Ec).
  destruct (ill_posed nm v xd) eqn:Ei; [discriminate|].
  injection Ec as -> -> ->. repeat split; trivial. exists xd, xt. auto.
Qed.

Lemma accept_or_reject_accept s x_try y_try e_try de :
  (0 <? de)%float = true ->
  accept_or_reject alg s x_try y_try e_try de =
    {| lambda := (lambda s / m_eta alg)%float; converged := converged s;
       derr := derr s ++ [de]; x_best := x_try; y_best := y_try;
       e_best := e_try; updates := S (updates s) |}.
Proof. unfold accept_or_reject. now intros ->. Qed.

Lemma accept_or_reject_reject s x_try y_try e_try de :
  (0 <? de)%float = false ->
  accept_or_reject alg s x_try y_try e_try de =
    {| lambda := (lambda s * m_eta alg)%float; converged := converged s;
       derr := derr s; x_best := x_best s; y_best := y_best s;
       e_best := e_best s; updates := updates s |}.
Proof. unfold accept_or_reject. now intros ->. Qed.

Lemma after_trial_inv s v x_delta x_try :
  state_inv nm f s -> state_inv nm f (after_trial alg nm f s v x_delta x_try).1.
Proof.
  intros (Hy & He & Hd). unfold after_trial, state_inv. simpl.
  destruct (0 <? e_best s - rms nm (call f x_try))%float eqn:E.
  - rewrite accept_or_reject_accept by exact E. simpl.
    rewrite length_app. simpl. repeat split; lia.
  - rewrite accept_or_reject_reject by exact E. simpl. auto.
Qed.

Lemma begin_outer_Ok s l c :
  begin_outer nm f s l = Ok c ->
  exists r H D,
    ComputeJacobian f (x_best s) (y_best s) = Ok r /\
    cv_gemm nm (Mat_t (jac r)) (jac r) = Ok H /\
    cv_gemm nm (Mat_t (jac r)) (Mat_of_vec (y_io r)) = Ok D /\
    c = AtInner
          {| lambda := if (lambda s <? 0)%float then cv_mean nm (Mat_diag H) else lambda s;
             converged := converged s; derr := derr s; x_best := x_best s;
             y_best := y_io r; e_best := e_best s; updates := updates s |}
          {| Hmat := H; Dvec := D; better := false; trials := 0; ratios := None |} l.
Proof.
  unfold begin_outer. intros E.
  apply bind_Ok in E as (r & Er & E). apply bind_Ok in E as (H & EH & E).
  apply bind_Ok in E as (D & ED & E). injection E as <-.
  exists r, H, D. auto.
Qed.

Lemma catch_Ok l m c :
  catch l m = Ok c ->
  m = Ok c \/ exists w, m = Throw w /\
    c = Returned false (l ++ [Error "exception caught in optimisation loop"; Error w]) [].
Proof.
  destruct m as [c'|w|]; simpl; intros E; try discriminate; [now left|].
  injection E as <-. right. eauto.
Qed.

Lemma step_inv c c' :
  config_inv nm f c -> step alg nm f c = Ok c' -> config_inv nm f c'.
Proof.
  destruct c as [s l|s v l|r l k]; simpl; intros Hinv E.
  - destruct (converged s).
    + injection E as <-. unfold finish. now destruct (SetSolution f (x_best s)).
    + apply catch_Ok in E as [E|(w & _ & ->)]; [|exact I].
      apply begin_outer_Ok in E as (r & H & D & Er & _ & _ & ->).
      apply ComputeJacobian_Ok in Er as [Ey _].
      destruct Hinv as (Hy & He & Hd). unfold config_inv, state_inv. simpl.
      assert (y_io r = y_best s) as ->; [|auto].
      rewrite Ey. destruct (y_best s); [now rewrite Hy|trivial].
  - destruct (negb (better v) && negb (converged s)).
    + apply catch_Ok in E as [E|(w & _ & ->)]; [|exact I].
      apply trial_Ok in E as (xd & xt & _ & _ & ->).
      destruct (ill_posed nm v xd); [exact I|].
      apply (after_trial_inv s v xd xt Hinv).
    + injection E as <-. exact Hinv.
  - injection E as <-. exact I.
Qed.

Lemma Solve_entry_Ok x0 c0 :
  Solve_entry alg nm f x0 = Ok c0 ->
  (1 <? m_eta alg)%float = true /\
  exists l, c0 = AtOuter
    {| lambda := m_lambda alg; converged := false; derr := []; x_best := x0;
       y_best := call f x0; e_best := rms nm (call f x0); updates := 0 |} l.
Proof.
  unfold Solve_entry. destruct (1 <? m_eta alg)%float; [|discriminate].
  intros E. injection E as <-. eauto.
Qed.

Lemma reach_inv x0 c0 c :
  Solve_entry alg nm f x0 = Ok c0 -> reach alg nm f c0 c -> config_inv nm f c.
Proof.
  intros E Hr. induction Hr as [|c c' _ IH Hs].
  - apply Solve_entry_Ok in E as (_ & l & ->). now repeat split.
  - eapply step_inv; eauto.
Qed.

(** A run that passes through [c] ends as the run from [c] does. *)
Lemma reach_run c0 c res :
  reach alg nm f c0 c ->
  (exists n, forall fuel, n <= fuel -> run alg nm f fuel c = Ok (Some res)) ->
  exists n, forall fuel, n <= fuel -> run alg nm f fuel c0 = Ok (Some res).
Proof.
  intros Hr. induction Hr as [|c c' _ IH Hs]; trivial.
  intros (n & Hn). apply IH. exists (S n). intros [|fuel] Hle; [lia|].
  destruct c as [s l|s v l|r l k]; simpl in *.
  - rewrite Hs. simpl. apply Hn. lia.
  - rewrite Hs. simpl. apply Hn. lia.
  - injection Hs as <-. specialize (Hn (S fuel) ltac:(lia)). exact Hn.
Qed.

Lemma run_Returned fuel r l k :
  run alg nm f fuel (Returned r l k) = Ok (Some {| ret := r; log := l; sink := k |}).
Proof. now destruct fuel. Qed.

(** A step from the inner loop head does not return true, and a step that
    makes a trial stays in the inner loop or returns false. *)
Lemma step_inner_not_true s v l c :
  step alg nm f (AtInner s v l) = Ok c ->
  (forall l' k, c <> Returned true l' k) /\
  (better v = false -> converged s = false -> forall s' l', c <> AtOuter s' l').
Proof.
  simpl. destruct (better v), (converged s); simpl;
    try (intros E; injection E as <-; split; [discriminate | intros; discriminate]).
  intros E. apply catch_Ok in E as [E|(w & _ & ->)];
    [|split; [discriminate | intros; discriminate]].
  apply trial_Ok in E as (xd & xt & _ & _ & ->).
  destruct (ill_posed nm v xd); split; try discriminate; intros; discriminate.
Qed.

(** The first step of a call enters the inner loop, with no trial made, or
    returns false. *)
Lemma step_outer_fresh s l c :
  converged s = false -> step alg nm f (AtOuter s l) = Ok c ->
  (exists s' v' l', c = AtInner s' v' l' /\ better v' = false /\ converged s' = false)
  \/ exists l' k, c = Returned false l' k.
Proof.
  simpl. intros Hc E. rewrite Hc in E.
  apply catch_Ok in E as [E|(w & _ & ->)]; [|eauto].
  apply begin_outer_Ok in E as (r & H & D & _ & _ & _ & ->). left.
  eexists _, _, _. split; [reflexivity|]. split; [reflexivity | exact Hc].
Qed.

(** Whatever the kernels do, [Solve] does not return true within its first
    three loop tests: before it can, it has made a trial. *)
Lemma Solve_true_after_trial x0 fuel res :
  fuel <= 3 -> Solve alg nm f fuel x0 = Ok (Some res) -> ret res = false.
Proof.
  intros Hfuel. unfold Solve. intros E.
  apply bind_Ok in E as (c0 & E0 & E).
  apply Solve_entry_Ok in E0 as (_ & l0 & ->).
  set (s0 := {| lambda := m_lambda alg; converged := false; derr := []; x_best := x0;
                y_best := call f x0; e_best := rms nm (call f x0); updates := 0 |}) in *.
  destruct fuel as [|fuel]; [discriminate|].
  cbn [run] in E. apply bind_Ok in E as (c1 & E1 & E).
  apply (step_outer_fresh s0 l0 c1 eq_refl) in E1
    as [(s1 & v1 & l1 & -> & Hb1 & Hc1)|(l1 & k1 & ->)];
    [|rewrite run_Returned in E; now injection E as <-].
  destruct fuel as [|fuel]; [discriminate|].
  cbn [run] in E. apply bind_Ok in E as (c2 & E2 & E).
  apply step_inner_not_true in E2 as [Ht2 Ho2]. specialize (Ho2 Hb1 Hc1).
  destruct c2 as [s2 l2|s2 v2 l2|r2 l2 k2].
  - now destruct (Ho2 s2 l2).
  - destruct fuel as [|fuel]; [discriminate|].
    cbn [run] in E. apply bind_Ok in E as (c3 & E3 & E).
    apply step_inner_not_true in E3 as [Ht3 _].
    destruct fuel as [|fuel]; [|lia].
    destruct c3 as [s3 l3|s3 v3 l3|r3 l3 k3]; try discriminate.
    simpl in E. injection E as <-. simpl.
    destruct r3; [now destruct (Ht3 l3 k3) | reflexivity].
  - rewrite run_Returned in E. injection E as <-. simpl.
    destruct r2; [now destruct (Ht2 l2 k2) | reflexivity].
Qed.

End SolveFacts.

(** ** The damping after the inner loop *)

Lemma after_trial_lambda alg nm f s v x_delta x_try :
  let sv := after_trial alg nm f s v x_delta x_try in
  trials sv.2 = S (trials v) /\
  lambda sv.1 = if better sv.2 then (lambda s / m_eta alg)%float
                else (lambda s * m_eta alg)%float.
Proof.
  unfold after_trial. simpl. split; trivial. unfold accept_or_reject.
  now destruct (0 <? e_best s - rms nm (call f x_try))%float.
Qed.

(** C5: within one inner loop, entered with [trials = 0], every rejected
    trial multiplies [lambda] by [eta] and the accepted one divides it by
    [eta]: at every test of the inner loop, [lambda] is its value at entry
    multiplied [rejects] times and divided [accepts] times by [eta], where
    [accepts] is 1 when the last trial was accepted and 0 otherwise, and
    [accepts + rejects = trials]. *)
Theorem inner_loop_lambda (alg : LevenbergMarquardtAlgorithm) (nm : Numerics)
    (f : LeastSquaresProblem) (s0 : lm_state) (v0 : inner_vars) (l0 : list event)
    (s : lm_state) (v : inner_vars) (l : list event) :
  better v0 = false -> trials v0 = 0 ->
  inner_reach alg nm f (AtInner s0 v0 l0) (AtInner s v l) ->
  let accepts := if better v then 1 else 0 in
  let rejects := trials v - accepts in
  accepts + rejects = trials v /\
  lambda s = scaled (m_eta alg) accepts rejects (lambda s0).
Proof.
  intros Hb Ht Hr.
  remember (AtInner s0 v0 l0) as c0 eqn:E0.
  remember (AtInner s v l) as c eqn:Ec.
  revert s v l Ec.
  induction Hr as [|s1 v1 l1 s2 v2 l2 _ IH Hstep]; intros s v l Ec.
  - rewrite E0 in Ec. injection Ec as <- <- <-.
    rewrite Hb, Ht. simpl. split; reflexivity.
  - injection Ec as <- <- <-.
    destruct (IH s1 v1 l1 eq_refl) as [_ IHl].
    apply step_inner_inner in Hstep as (Hb1 & _ & _ & xd & xt & _ & _ & _ & Eq).
    pose proof (after_trial_lambda alg nm f s1 v1 xd xt) as [Et El].
    rewrite <- Eq in Et, El. simpl in Et, El.
    rewrite Hb1 in IHl. simpl in IHl. rewrite Nat.sub_0_r in IHl.
    rewrite Et, El. destruct (better v2); simpl.
    + rewrite Nat.sub_0_r. split; [reflexivity|]. now rewrite IHl.
    + split; [lia|]. now rewrite IHl.
Qed.

(** ** Convergence control *)

Lemma derr_ratio_last_two (pre : list float) (a b : float) :
  derr_ratio (pre ++ [a; b]) = (b / a)%float.
Proof.
  unfold derr_ratio. rewrite length_app. simpl.
  rewrite decide_True by lia.
  replace (length pre + 2 - 1) with (length pre + 1) by lia.
  replace (length pre + 2 - 2) with (length pre + 0) by lia.
  rewrite !lookup_app_r by lia.
  replace (length pre + 1 - length pre) with 1 by lia.
  replace (length pre + 0 - length pre) with 0 by lia.
  reflexivity.
Qed.

Lemma last_two {A} (l : list A) :
  1 < length l -> exists pre a b, l = pre ++ [a; b].
Proof.
  intros H. destruct (rev l) as [|b [|a r]] eqn:E;
    apply (f_equal (@rev A)) in E; rewrite rev_involutive in E; subst l;
    simpl in H; try lia.
  exists (rev r), a, b. simpl. now rewrite <- app_assoc.
Qed.

(** C6: after every trial of the inner loop, [converged] is set exactly when
    the update count has reached [maxCount], or more than one update was
    accepted and the ratio of the last two accepted error drops is below
    [epsilon], or more than one update was accepted and the relative step
    size is below [epsilon], or the trial was rejected and [lambda] is zero
    or the trial count has reached [maxCount]. *)
Theorem convergence_after_trial (alg : LevenbergMarquardtAlgorithm)
    (nm : Numerics) (f : LeastSquaresProblem) (x0 : Vec) (c0 : config)
    (s : lm_state) (v : inner_vars) (l : list event)
    (s' : lm_state) (v' : inner_vars) (w : list event) (ill : bool)
    (x_delta : Vec) :
  Solve_entry alg nm f x0 = Ok c0 ->
  reach alg nm f c0 (AtInner s v l) ->
  negb (better v) && negb (converged s) = true ->
  trial_body alg nm f s v = Ok (s', v', w, ill) ->
  propose nm s v = Ok x_delta ->
  converged s' = true <->
    maxCount (m_term alg) <= updates s' \/
    (1 < updates s' /\
     exists pre a b, derr s' = pre ++ [a; b] /\
       (b / a <? epsilon (m_term alg))%float = true) \/
    (1 < updates s' /\
     (cv_norm nm x_delta / cv_norm nm (x_best s') <? epsilon (m_term alg))%float = true) \/
    (better v' = false /\
     ((lambda s' =? 0)%float = true \/ maxCount (m_term alg) <= trials v')).
Proof.
  intros Hentry Hreach Hguard Hbody Hprop.
  pose proof (reach_inv alg nm f x0 c0 _ Hentry Hreach) as Hinv.
  apply andb_true_iff in Hguard as [_ Hconv]. apply negb_true_iff in Hconv.
  apply trial_body_Ok in Hbody as (xd & xt & Hxd & _ & Eq & _ & _).
  rewrite Hprop in Hxd. injection Hxd as <-.
  pose proof (after_trial_inv alg nm f s v x_delta xt Hinv) as (_ & _ & Hlen).
  rewrite <- Eq in Hlen. simpl in Hlen.
  unfold after_trial in Eq. injection Eq as -> ->. simpl in *.
  set (s1 := accept_or_reject alg s xt (call f xt) (rms nm (call f xt))
               (e_best s - rms nm (call f xt))) in *.
  assert (converged s1 = false) as Hc1.
  { subst s1. unfold accept_or_reject. now destruct (0 <? _)%float. }
  unfold convergence_control. rewrite Hc1. simpl.
  rewrite !orb_true_iff, !andb_true_iff, !orb_true_iff, !bool_decide_eq_true,
    negb_true_iff.
  split.
  - intros [[[H|[H1 H2]]|[H1 H2]]|[H1 H2]]; auto.
    right. left. split; trivial.
    destruct (last_two (derr s1) ltac:(lia)) as (pre & a & b & E).
    exists pre, a, b. split; trivial. now rewrite E, derr_ratio_last_two in H2.
  - intros [H|[(H1 & pre & a & b & E & H2)|[[H1 H2]|[H1 H2]]]]; auto.
    left. left. right. split; trivial. now rewrite E, derr_ratio_last_two.
Qed.

(** ** Accepted and rejected trials *)

(** C8: an accepted trial commits a best state whose [rms] is strictly
    smaller than that of the best state held before it; a rejected trial
    leaves [x_best], [y_best] and [e_best] as they were. *)
Theorem accepted_trial_improves (alg : LevenbergMarquardtAlgorithm)
    (nm : Numerics) (f : LeastSquaresProblem) (x0 : Vec) (c0 : config)
    (s : lm_state) (v : inner_vars) (l : list event)
    (s' : lm_state) (v' : inner_vars) (w : list event) (ill : bool) :
  Solve_entry alg nm f x0 = Ok c0 ->
  reach alg nm f c0 (AtInner s v l) ->
  negb (better v) && negb (converged s) = true ->
  trial_body alg nm f s v = Ok (s', v', w, ill) ->
  (better v' = true ->
     (rms nm (y_best s') <? rms nm (y_best s))%float = true /\
     e_best s' = rms nm (y_best s') /\ updates s' = S (updates s)) /\
  (better v' = false ->
     x_best s' = x_best s /\ y_best s' = y_best s /\ e_best s' = e_best s /\
     updates s' = updates s).
Proof.
  intros Hentry Hreach _ Hbody.
  pose proof (reach_inv alg nm f x0 c0 _ Hentry Hreach) as (_ & He & _).
  apply trial_body_Ok in Hbody as (xd & xt & _ & _ & Eq & _ & _).
  unfold after_trial in Eq. injection Eq as -> ->. simpl.
  unfold accept_or_reject.
  destruct (0 <? e_best s - rms nm (call f xt))%float eqn:E; simpl.
  - split; [intros _ | discriminate]. repeat split.
    rewrite <- He. now apply DoubleFacts.sub_pos_lt.
  - split; [discriminate | intros _]. auto.
Qed.

(** ** Ill-posed problems *)

Lemma not_responsive_spec (icv : Vec) :
  forall d0 e, e ∈ not_responsive icv d0 <->
    exists d a, e = Warning_not_responsive (d0 + d) /\ icv !! d = Some a /\
                (a =? 0)%float = true.
Proof.
  induction icv as [|a icv IH]; intros d0 e; simpl.
  - split; [intros H; inversion H | intros (d & a & _ & H & _); discriminate].
  - rewrite elem_of_app, IH. split.
    + intros [H|(d & b & -> & Hd & Hb)].
      * destruct (a =? 0)%float eqn:Ea; [|inversion H].
        apply list_elem_of_singleton in H as ->.
        exists 0, a. rewrite Nat.add_0_r. auto.
      * exists (S d), b. replace (d0 + S d) with (S d0 + d) by lia. auto.
    + intros ([|d] & b & -> & Hd & Hb); simpl in Hd.
      * injection Hd as ->. rewrite Hb. left. rewrite Nat.add_0_r. now left.
      * right. exists d, b. replace (d0 + S d) with (S d0 + d) by lia. auto.
Qed.

Lemma ill_posed_true nm v x_delta :
  (exists d a, Mat_diag (Hmat v) !! d = Some a /\ (a =? 0)%float = true)
  \/ is_finite (cv_norm nm x_delta) = false ->
  ill_posed nm v x_delta = true.
Proof.
  unfold ill_posed. intros [(d & a & Hd & Ha)|Hn].
  - apply orb_true_iff. left. apply bool_decide_eq_true. intros E.
    assert (Warning_not_responsive (0 + d) ∈ not_responsive (Mat_diag (Hmat v)) 0) as Hin
      by (apply not_responsive_spec; eauto).
    rewrite E in Hin. inversion Hin.
  - rewrite Hn. apply orb_true_r.
Qed.

(** The diagonal of [H] is scanned by the first trial after [H] is built:
    an inner loop head is either fresh, with its trial still to run, or
    holds a diagonal without a zero. *)
Lemma reach_diag_scanned alg nm f x0 c0 s v l :
  Solve_entry alg nm f x0 = Ok c0 ->
  reach alg nm f c0 (AtInner s v l) ->
  (better v = false /\ converged s = false)
  \/ not_responsive (Mat_diag (Hmat v)) 0 = [].
Proof.
  intros Hentry Hr.
  remember (AtInner s v l) as c eqn:Ec. revert s v l Ec.
  induction Hr as [|c1 c IH1 IH Hs]; intros s v l Ec.
  - apply Solve_entry_Ok in Hentry as (_ & l0 & ->). discriminate.
  - subst c. destruct c1 as [s1 l1|s1 v1 l1|r1 l1 k1]; simpl in Hs.
    + destruct (converged s1) eqn:Hc.
      * unfold finish in Hs. destruct (SetSolution f (x_best s1)); discriminate.
      * apply catch_Ok in Hs as [Eb|(w & _ & ?)]; [|discriminate].
        apply begin_outer_Ok in Eb as (r & H & D & _ & _ & _ & Eq).
        injection Eq as -> -> _. simpl. now left.
    + destruct (negb (better v1) && negb (converged s1)); [|discriminate].
      apply catch_Ok in Hs as [Et|(w & _ & ?)]; [|discriminate].
      apply trial_Ok in Et as (xd & xt & _ & _ & Et).
      destruct (ill_posed nm v1 xd) eqn:Ei; [discriminate|].
      injection Et as -> -> _. right. simpl.
      exact (ill_posed_false nm v1 xd Ei).
    + discriminate.
Qed.

(** C7, as amended: when a solve holds an [H] with a zero on its diagonal,
    or a trial proposes a step [x_delta] whose norm is not finite, [Solve]
    returns false; the log then ends with one warning per zero entry of the
    diagonal, naming the index of the entry, which is the position of the
    parameter in the active set and not its index among all parameters,
    followed by the ill-posed error; and [SetSolution] has not been
    called. *)
Theorem ill_posed_aborts (alg : LevenbergMarquardtAlgorithm) (nm : Numerics)
    (f : LeastSquaresProblem) (x0 : Vec) (c0 : config)
    (s : lm_state) (v : inner_vars) (l : list event) (x_delta x_try : Vec) :
  Solve_entry alg nm f x0 = Ok c0 ->
  reach alg nm f c0 (AtInner s v l) ->
  propose nm s v = Ok x_delta ->
  ApplyUpdate f (x_best s) x_delta = Ok x_try ->
  (exists d a, Mat_diag (Hmat v) !! d = Some a /\ (a =? 0)%float = true)
  \/ (negb (better v) && negb (converged s) = true /\
      is_finite (cv_norm nm x_delta) = false) ->
  let warnings := not_responsive (Mat_diag (Hmat v)) 0 in
  (forall e, e ∈ warnings <->
     exists d a, e = Warning_not_responsive d /\
       Mat_diag (Hmat v) !! d = Some a /\ (a =? 0)%float = true) /\
  exists n, forall fuel, n <= fuel ->
    Solve alg nm f fuel x0
    = Ok (Some {| ret := false;
                  log := l ++ warnings ++ [Error "problem ill-posed"];
                  sink := [] |}).
Proof.
  intros Hentry Hreach Hprop Happly Hill warnings. split.
  - intros e. apply (not_responsive_spec (Mat_diag (Hmat v)) 0 e).
  - assert (negb (better v) && negb (converged s) = true) as Hguard.
    { destruct Hill as [(d & a & Hd & Ha)|[Hg _]]; [|exact Hg].
      destruct (reach_diag_scanned alg nm f x0 c0 s v l Hentry Hreach)
        as [[-> ->]|Hnone]; [reflexivity|].
      assert (Warning_not_responsive (0 + d) ∈ not_responsive (Mat_diag (Hmat v)) 0)
        as Hin by (apply not_responsive_spec; eauto).
      rewrite Hnone in Hin. inversion Hin. }
    assert (ill_posed nm v x_delta = true) as Hi.
    { apply ill_posed_true. destruct Hill as [?|[_ ?]]; auto. }
    unfold Solve. rewrite Hentry. simpl.
    eapply reach_run; [exact Hreach|]. exists 1. intros [|fuel] Hle; [lia|].
    simpl. rewrite Hguard.
    rewrite (trial_unfold alg nm f s v l x_delta x_try Hprop Happly), Hi.
    simpl. apply run_Returned.
Qed.

(** ** An empty active set *)

Section Frozen.
Context (alg : LevenbergMarquardtAlgorithm) (nm : Numerics)
        (f : LeastSquaresProblem) (x0 : Vec).
Hypothesis frozen : m_varIdx f = [].

Lemma join_all_idle n J : join_all f (replicate n []) J = Ok J.
Proof using Type. induction n; simpl; trivial. Qed.

Lemma ComputeJacobian_frozen x y :
  ComputeJacobian f x y
  = Ok {| jac := Mat_zeros (m_conds f) 0;
          y_io := match y with [] => call f x | _ => y end; self := f |}.
Proof using frozen.
  unfold ComputeJacobian, Jacobian_setup. rewrite frozen. simpl.
  now rewrite join_all_idle.
Qed.

Lemma ApplyUpdate_frozen x d x' : ApplyUpdate f x d = Ok x' -> x' = x.
Proof using frozen.
  unfold ApplyUpdate. rewrite frozen. destruct (decide _); simpl; congruence.
Qed.

Lemma after_trial_frozen s v xd :
  state_inv nm f s ->
  let sv := after_trial alg nm f s v xd (x_best s) in
  x_best sv.1 = x_best s /\ updates sv.1 = updates s /\ better sv.2 = false /\
  y_best sv.1 = y_best s /\ e_best sv.1 = e_best s /\
  lambda sv.1 = (lambda s * m_eta alg)%float /\
  converged sv.1 = convergence_control alg
     {| lambda := (lambda s * m_eta alg)%float; converged := converged s;
        derr := derr s; x_best := x_best s; y_best := y_best s;
        e_best := e_best s; updates := updates s |}
     false (S (trials v)) (derr_ratio (derr s))
     (cv_norm nm xd / cv_norm nm (x_best s))%float.
Proof using Type.
  intros (Hy & He & _). unfold after_trial. simpl.
  rewrite <- Hy, <- He, DoubleFacts.sub_self_not_pos.
  rewrite accept_or_reject_reject by apply DoubleFacts.sub_self_not_pos.
  simpl. repeat split.
Qed.

Lemma step_frozen c c' :
  frozen_cfg nm f x0 c -> step alg nm f c = Ok c' -> frozen_cfg nm f x0 c'.
Proof using frozen.
  intros Hc Hs. pose proof Hs as Hs'.
  destruct c as [s l|s v l|r l k]; simpl in Hs.
  - destruct Hc as (Hx & Hu & Hinv). destruct (converged s).
    + injection Hs as <-. unfold finish. rewrite Hx.
      destruct (SetSolution f x0); simpl; auto.
    + apply catch_Ok in Hs as [E|(w & _ & ->)]; [|now left].
      pose proof (step_inv alg nm f (AtOuter s l) c' Hinv Hs') as Hinv'.
      apply begin_outer_Ok in E as (r & H & D & _ & _ & _ & ->).
      simpl. auto.
  - destruct Hc as (Hx & Hu & Hinv & Hb).
    destruct (negb (better v) && negb (converged s)).
    + apply catch_Ok in Hs as [E|(w & _ & ->)]; [|now left].
      apply trial_Ok in E as (xd & xt & _ & E2 & ->).
      apply ApplyUpdate_frozen in E2 as ->.
      destruct (ill_posed nm v xd).
      * now left.
      * destruct (after_trial_frozen s v xd Hinv) as (Ex & Eu & Eb & _).
        pose proof (after_trial_inv alg nm f s v xd (x_best s) Hinv) as Hi.
        change (frozen_cfg nm f x0 (AtInner (after_trial alg nm f s v xd (x_best s)).1
                              (after_trial alg nm f s v xd (x_best s)).2 l)).
        cbv beta iota delta [frozen_cfg]. rewrite Ex, Eu. auto.
    + injection Hs as <-. simpl. auto.
  - injection Hs as <-. exact Hc.
Qed.

Lemma reach_frozen c0 c :
  Solve_entry alg nm f x0 = Ok c0 -> reach alg nm f c0 c -> frozen_cfg nm f x0 c.
Proof using frozen.
  intros E Hr. induction Hr as [|c c' _ IH Hs].
  - apply Solve_entry_Ok in E as (_ & l & ->). simpl. now repeat split.
  - eapply step_frozen; eauto.
Qed.

(** The body of the outer loop is entered once: the outer loop test is met
    again only with [converged] set. *)
Lemma frozen_outer_once c0 s l :
  Solve_entry alg nm f x0 = Ok c0 -> reach alg nm f c0 (AtOuter s l) ->
  AtOuter s l = c0 \/ converged s = true.
Proof using frozen.
  intros E Hr. inversion Hr as [|c1 c' Hr1 Hs]; subst; [now left | right].
  pose proof (reach_frozen c0 c1 E Hr1) as Hc.
  destruct c1 as [s1 l1|s1 v1 l1|r1 l1 k1]; simpl in Hs.
  - destruct (converged s1).
    + unfold finish in Hs. destruct (SetSolution f (x_best s1)); discriminate.
    + apply catch_Ok in Hs as [Eb|(w & _ & ?)]; [|discriminate].
      apply begin_outer_Ok in Eb as (r & H & D & _ & _ & _ & ?). discriminate.
  - destruct Hc as (_ & _ & _ & Hb). rewrite Hb in Hs. simpl in Hs.
    destruct (converged s1) eqn:Hconv; simpl in Hs.
    + now injection Hs as <- _.
    + apply catch_Ok in Hs as [Et|(w & _ & ?)]; [|discriminate].
      apply trial_Ok in Et as (xd & xt & _ & _ & Et).
      destruct (ill_posed nm v1 xd); discriminate.
  - discriminate.
Qed.

Hypothesis sane : empty_safe nm.
Hypothesis accepts : SetSolution f x0 = true.

Lemma propose_frozen s v : frozen_inner nm f x0 s v -> propose nm s v = Ok [].
Proof using sane.
  intros (_ & _ & _ & HH & HD & _). unfold propose. rewrite HH, HD. simpl.
  destruct (inv_no_rows nm sane (mkMat 0 0 []) eq_refl eq_refl eq_refl)
    as ([ra ca ea] & -> & Hr & Hc & He). simpl in Hr, Hc, He. subst ra ca ea. simpl.
  destruct (gemm_no_rows nm sane (mkMat 0 0 []) (Mat_neg (mkMat 0 1 []))
              eq_refl eq_refl eq_refl)
    as ([rx cx ex] & -> & _ & _ & He). simpl in He. now subst ex.
Qed.

Lemma frozen_finish s v l :
  frozen_inner nm f x0 s v -> converged s = true ->
  exists l', forall fuel, 2 <= fuel ->
    run alg nm f fuel (AtInner s v l)
    = Ok (Some {| ret := true; log := l'; sink := [x0] |}).
Proof using accepts.
  intros (Hx & _ & _ & _ & _ & Hb) Hc. eexists. intros [|[|fuel]] Hle; try lia.
  simpl. rewrite Hb, Hc. simpl. rewrite Hc. simpl.
  unfold finish. rewrite Hx, accepts. apply run_Returned.
Qed.

Lemma frozen_trial s v l :
  frozen_inner nm f x0 s v -> converged s = false ->
  exists s' v',
    step alg nm f (AtInner s v l) = Ok (AtInner s' v' l) /\
    frozen_inner nm f x0 s' v' /\ trials v' = S (trials v) /\
    (maxCount (m_term alg) <= S (trials v) -> converged s' = true).
Proof using frozen sane.
  intros Hf Hc. pose proof Hf as (Hx & Hu & Hinv & HH & HD & Hb).
  exists (after_trial alg nm f s v [] (x_best s)).1,
         (after_trial alg nm f s v [] (x_best s)).2.
  destruct (after_trial_frozen s v [] Hinv) as (Ex & Eu & Eb & Ey & Ee & El & Ec).
  split; [|split; [|split]].
  - simpl. rewrite Hb, Hc. simpl.
    rewrite (trial_unfold alg nm f s v l [] (x_best s)).
    + assert (ill_posed nm v [] = false) as ->; [|reflexivity].
      unfold ill_posed. rewrite HH, (norm_nil_finite nm sane). reflexivity.
    + now apply propose_frozen.
    + unfold ApplyUpdate. rewrite frozen.
      destruct (decide _) as [|Hn]; [reflexivity | simpl in Hn; lia].
  - pose proof (after_trial_inv alg nm f s v [] (x_best s) Hinv) as Hi.
    unfold frozen_inner. rewrite Ex, Eu, Eb.
    split; [exact Hx|]. split; [exact Hu|]. split; [exact Hi|].
    split; [exact HH|]. split; [exact HD|reflexivity].
  - reflexivity.
  - intros Hle. rewrite Ec. unfold convergence_control. simpl.
    rewrite (bool_decide_eq_true_2 (maxCount (m_term alg) <= S (trials v))) by exact Hle.
    now rewrite !orb_true_r.
Qed.

Lemma frozen_inner_run (k : nat) :
  forall s v l,
    frozen_inner nm f x0 s v -> maxCount (m_term alg) <= trials v + k ->
    exists n l', forall fuel, n <= fuel ->
      run alg nm f fuel (AtInner s v l)
      = Ok (Some {| ret := true; log := l'; sink := [x0] |}).
Proof using frozen sane accepts.
  induction k as [|k IH]; intros s v l Hf Hle.
  - destruct (converged s) eqn:Hc.
    + destruct (frozen_finish s v l Hf Hc) as (l' & Hrun). eauto.
    + destruct (frozen_trial s v l Hf Hc) as (s' & v' & Hs & Hf' & Ht & Hconv).
      destruct (frozen_finish s' v' l Hf' (Hconv ltac:(lia))) as (l' & Hrun).
      exists 3, l'. intros [|fuel] Hfuel; [lia|].
      change (run alg nm f (S fuel) (AtInner s v l))
        with (step alg nm f (AtInner s v l) ≫= run alg nm f fuel).
      rewrite Hs. simpl. apply Hrun. lia.
  - destruct (converged s) eqn:Hc.
    + destruct (frozen_finish s v l Hf Hc) as (l' & Hrun). eauto.
    + destruct (frozen_trial s v l Hf Hc) as (s' & v' & Hs & Hf' & Ht & _).
      destruct (IH s' v' l Hf' ltac:(lia)) as (n & l' & Hrun).
      exists (S n), l'. intros [|fuel] Hfuel; [lia|].
      change (run alg nm f (S fuel) (AtInner s v l))
        with (step alg nm f (AtInner s v l) ≫= run alg nm f fuel).
      rewrite Hs. simpl. apply Hrun. lia.
Qed.

Lemma begin_outer_frozen s l :
  x_best s = x0 -> updates s = 0 -> state_inv nm f s ->
  length (call f x0) = m_conds f ->
  exists s' v',
    begin_outer nm f s l = Ok (AtInner s' v' l) /\
    frozen_inner nm f x0 s' v' /\ trials v' = 0.
Proof using frozen sane.
  intros Hx Hu (Hy & He & Hd) Hlen. unfold begin_outer.
  rewrite ComputeJacobian_frozen. simpl.
  assert (match y_best s with [] => call f (x_best s) | _ => y_best s end = call f x0)
    as -> by (rewrite Hy, Hx; now destruct (call f x0)).
  change (Mat_t (Mat_zeros (m_conds f) 0)) with (@mkMat float 0 (m_conds f) []).
  destruct (gemm_no_rows nm sane (mkMat 0 (m_conds f) []) (Mat_zeros (m_conds f) 0)
              eq_refl eq_refl eq_refl)
    as ([rh ch eh] & -> & Hr & Hc & Hel). simpl in Hr, Hc, Hel. subst rh ch eh.
  destruct (gemm_no_rows nm sane (mkMat 0 (m_conds f) []) (Mat_of_vec (call f x0))
              eq_refl eq_refl)
    as ([rd cd ed] & -> & Hr & Hc & Hel); [simpl; lia|].
  simpl in Hr, Hc, Hel. subst rd cd ed.
  simpl. eexists _, _. split; [reflexivity|]. split; [|reflexivity].
  unfold frozen_inner, state_inv. simpl. rewrite <- Hx, <- Hy. auto 10.
Qed.

(** The call does not return before its fourth loop test: the outer test,
    the inner test and one trial, the inner test again. *)
Lemma frozen_not_before (fuel : nat) :
  (1 <? m_eta alg)%float = true -> length (call f x0) = m_conds f ->
  fuel <= 3 -> Solve alg nm f fuel x0 = Ok None.
Proof using frozen sane.
  intros Heta Hlen Hfuel. unfold Solve, Solve_entry. rewrite Heta.
  cbn [mbind outcome_bind].
  set (s0 := {| lambda := m_lambda alg; converged := false; derr := [];
                x_best := x0; y_best := call f x0;
                e_best := rms nm (call f x0); updates := 0 |}).
  set (l0 := if m_verbose alg then _ else _).
  destruct (begin_outer_frozen s0 l0) as (s1 & v1 & Hb & Hf1 & _);
    trivial; [now repeat split|].
  assert (converged s1 = false) as Hc1.
  { pose proof Hb as Hb'.
    apply begin_outer_Ok in Hb' as (r & H & D & _ & _ & _ & E).
    injection E as -> _. reflexivity. }
  assert (step alg nm f (AtOuter s0 l0) = Ok (AtInner s1 v1 l0)) as Hs0
    by (cbn [step converged s0]; now rewrite Hb).
  destruct (frozen_trial s1 v1 l0 Hf1 Hc1) as (s2 & v2 & Hs1 & Hf2 & _ & _).
  assert (exists c3, step alg nm f (AtInner s2 v2 l0) = Ok c3 /\
                     run alg nm f 0 c3 = Ok None) as (c3 & Hs2 & Hc3).
  { destruct (converged s2) eqn:Hc2.
    - destruct Hf2 as (_ & _ & _ & _ & _ & Hb2). eexists. split.
      + cbn [step]. rewrite Hb2, Hc2. reflexivity.
      + reflexivity.
    - destruct (frozen_trial s2 v2 l0 Hf2 Hc2) as (s3 & v3 & Hs & _).
      eexists. split; [exact Hs | reflexivity]. }
  destruct fuel as [|[|[|[|fuel]]]]; try lia.
  - reflexivity.
  - cbn [run]. rewrite Hs0. reflexivity.
  - cbn [run]. rewrite Hs0. cbn [mbind outcome_bind]. rewrite Hs1. reflexivity.
  - cbn [run]. rewrite Hs0. cbn [mbind outcome_bind]. rewrite Hs1.
    cbn [mbind outcome_bind]. rewrite Hs2. exact Hc3.
Qed.

End Frozen.

(** ** The properties on the sample problems *)

Lemma reference_empty_safe : empty_safe Reference.numerics.
Proof.
  split.
  - intros A B Hr He Hc. unfold cv_gemm, Reference.numerics, Reference.gemm.
    rewrite decide_True by exact Hc. rewrite He. simpl. eauto.
  - intros A Hr Hc He. unfold cv_inv, Reference.numerics, Reference.inv.
    rewrite decide_True by congruence. rewrite He. eauto.
  - reflexivity.
Qed.

Lemma climb_inner_loop :
  inner_reach Samples.lm8 Reference.numerics Samples.sigmoid
    Samples.climb_1 Samples.climb_4.
Proof.
  refine (inner_trial _ _ _ _ _ _ _ _ _ _
            (_ : inner_reach _ _ _ _ Samples.climb_3) _); [|vm_compute; reflexivity].
  refine (inner_trial _ _ _ _ _ _ _ _ _ _
            (_ : inner_reach _ _ _ _ Samples.climb_2) _); [|vm_compute; reflexivity].
  refine (inner_trial _ _ _ _ _ _ _ _ _ _
            (_ : inner_reach _ _ _ _ Samples.climb_1) _); [|vm_compute; reflexivity].
  apply inner_refl.
Qed.

Lemma inner_loop_lambda_witness :
  match Samples.climb_1, Samples.climb_4 with
  | AtInner s0 _ _, AtInner s v _ =>
      1 + 2 = trials v /\ lambda s = scaled 8 1 2 (lambda s0)
  | _, _ => False
  end.
Proof.
  lazymatch eval cbv delta [Samples.climb_1] in Samples.climb_1 with
  | AtInner ?s0 ?v0 ?l0 =>
      lazymatch eval cbv delta [Samples.climb_4] in Samples.climb_4 with
      | AtInner ?s ?v ?l =>
          exact (inner_loop_lambda Samples.lm8 Reference.numerics Samples.sigmoid
                   s0 v0 l0 s v l eq_refl eq_refl climb_inner_loop)
      end
  end.
Defined.

Lemma descent_reach :
  reach Samples.lm Reference.numerics Samples.shift3 Samples.descent_0 Samples.descent_1.
Proof. eapply reach_step; [apply reach_refl | vm_compute; reflexivity]. Qed.

Lemma convergence_after_trial_witness :
  match Samples.descent_trial with
  | Ok (s', v', _, _) =>
      converged s' = true <->
        3 <= updates s' \/
        (1 < updates s' /\
         exists pre a b, derr s' = pre ++ [a; b] /\ (b / a <? 0x1p-20)%float = true) \/
        (1 < updates s' /\
         (Reference.norm [1.5%float] / Reference.norm (x_best s') <? 0x1p-20)%float = true) \/
        (better v' = false /\ ((lambda s' =? 0)%float = true \/ 3 <= trials v'))
  | _ => False
  end.
Proof.
  lazymatch eval cbv delta [Samples.descent_1] in Samples.descent_1 with
  | AtInner ?s ?v ?l =>
      lazymatch eval cbv delta [Samples.descent_trial] in Samples.descent_trial with
      | Ok (?s', ?v', ?w, ?ill) =>
          exact (convergence_after_trial Samples.lm Reference.numerics Samples.shift3
                   [0%float] Samples.descent_0 s v l s' v' w ill [1.5%float]
                   eq_refl descent_reach eq_refl eq_refl eq_refl)
      end
  end.
Defined.

Lemma accepted_trial_improves_witness :
  match Samples.descent_1, Samples.descent_trial with
  | AtInner s _ _, Ok (s', _, _, _) =>
      (Reference.rms (y_best s') <? Reference.rms (y_best s))%float = true /\
      e_best s' = Reference.rms (y_best s') /\ updates s' = S (updates s)
  | _, _ => False
  end.
Proof.
  lazymatch eval cbv delta [Samples.descent_1] in Samples.descent_1 with
  | AtInner ?s ?v ?l =>
      lazymatch eval cbv delta [Samples.descent_trial] in Samples.descent_trial with
      | Ok (?s', ?v', ?w, ?ill) =>
          exact (proj1 (accepted_trial_improves Samples.lm Reference.numerics
                          Samples.shift3 [0%float] Samples.descent_0 s v l s' v' w ill
                          eq_refl descent_reach eq_refl eq_refl) eq_refl)
      end
  end.
Defined.

Lemma stuck_reach :
  reach Samples.lm Reference.numerics Samples.deaf1 Samples.stuck_0 Samples.stuck_1.
Proof. eapply reach_step; [apply reach_refl | vm_compute; reflexivity]. Qed.

Lemma ill_posed_aborts_witness :
  exists n, forall fuel, n <= fuel ->
    Solve Samples.lm Reference.numerics Samples.deaf1 fuel [0; 0]%float
    = Ok (Some {| ret := false;
                  log := [Info_rule; Info_header; Info_rule;
                          Info_row 0 3 (-1) None; Warning_not_responsive 0;
                          Error "problem ill-posed"];
                  sink := [] |}).
Proof.
  lazymatch eval cbv delta [Samples.stuck_1] in Samples.stuck_1 with
  | AtInner ?s ?v ?l =>
      refine (proj2 (ill_posed_aborts Samples.lm Reference.numerics Samples.deaf1
                       [0; 0]%float Samples.stuck_0 s v l [0%float] [0; 0]%float
                       eq_refl stuck_reach _ _ _))
  end.
  - vm_compute. reflexivity.
  - vm_compute. reflexivity.
  - left. exists 0, 0%float. split; reflexivity.
Defined.

(** C7 as stated fails on [deaf1]: its only active parameter, the one the
    residual does not respond to, has index 1, and the warning names 0, the
    position of that parameter in the active set; no warning names 1. *)
Lemma ill_posed_warning_names_position :
  m_varIdx Samples.deaf1 = [1] /\
  exists res,
    Solve Samples.lm Reference.numerics Samples.deaf1 2 [0; 0]%float = Ok (Some res) /\
    ret res = false /\
    Warning_not_responsive 0 ∈ log res /\
    Warning_not_responsive 1 ∉ log res.
Proof.
  split; [reflexivity|]. eexists. split; [vm_compute; reflexivity|].
  split; [reflexivity|]. split.
  - do 4 apply list_elem_of_further. apply list_elem_of_here.
  - intros H. repeat (apply elem_of_cons in H as [H|H]; [discriminate H|]).
    inversion H.
Qed.

(** * Further properties of the code *)

(** ** ApplyUpdate on any active set *)

Lemma add_deltas_frame (varIdx : Indices) (delta : Vec) :
  forall i x x', add_deltas varIdx delta i x = Ok x' ->
    length x' = length x /\ forall k, k ∉ varIdx -> x' !! k = x !! k.
Proof.
  induction varIdx as [|var rest IH]; intros i x x'; simpl.
  - intros E. injection E as <-. auto.
  - destruct (x !! var) as [xv|] eqn:Ex; [|discriminate].
    destruct (delta !! i) as [d|]; [|discriminate].
    intros E. apply IH in E as [El Ek]. rewrite length_insert in El. split; trivial.
    intros k Hk. apply not_elem_of_cons in Hk as [Hne Hk].
    rewrite Ek by exact Hk. now apply list_lookup_insert_ne.
Qed.

Lemma ApplyUpdate_frame p x0 delta x :
  ApplyUpdate p x0 delta = Ok x ->
  length x = length x0 /\ forall k, k ∉ m_varIdx p -> x !! k = x0 !! k.
Proof.
  unfold ApplyUpdate. destruct (decide _); [|discriminate]. apply add_deltas_frame.
Qed.

Lemma add_deltas_sum (varIdx : Indices) (delta : Vec) :
  forall i x x' k a, add_deltas varIdx delta i x = Ok x' -> x !! k = Some a ->
    x' !! k = Some (foldl PrimFloat.add a (deltas_at varIdx (drop i delta) k)).
Proof.
  induction varIdx as [|var rest IH]; intros i x x' k a; simpl.
  - intros E. injection E as <-. trivial.
  - destruct (x !! var) as [xv|] eqn:Ex; [|discriminate].
    destruct (delta !! i) as [d|] eqn:Ed; [|discriminate].
    intros E Hk. rewrite (drop_S _ _ _ Ed). unfold deltas_at. simpl.
    rewrite filter_cons. simpl. destruct (decide (var = k)) as [->|Hne].
    + simpl. rewrite Ex in Hk. injection Hk as ->.
      apply (IH (S i) _ _ k (a + d)%float E).
      apply list_lookup_insert_eq. eapply lookup_lt_Some, Ex.
    + apply (IH (S i) _ _ k a E). now rewrite list_lookup_insert_ne.
Qed.

Lemma add_deltas_returns (varIdx : Indices) (delta : Vec) :
  forall i x, (exists x', add_deltas varIdx delta i x = Ok x') <->
    i + length varIdx <= length delta `max` i /\
    Forall (fun var => var < length x) varIdx.
Proof.
  induction varIdx as [|var rest IH]; intros i x; simpl.
  - split; [intros _; split; [lia|constructor] | eauto].
  - destruct (x !! var) as [xv|] eqn:Ex.
    + destruct (delta !! i) as [d|] eqn:Ed.
      * rewrite IH, length_insert. apply lookup_lt_Some in Ex, Ed.
        rewrite Forall_cons. intuition lia.
      * apply lookup_ge_None in Ed. split; [intros [? ?]; discriminate|].
        intros [? _]. lia.
    + apply lookup_ge_None in Ex. split; [intros [? ?]; discriminate|].
      intros [_ H]. apply Forall_cons in H as [? _]. lia.
Qed.

Lemma add_deltas_no_throw (varIdx : Indices) (delta : Vec) :
  forall i x w, add_deltas varIdx delta i x <> Throw w.
Proof.
  induction varIdx as [|var rest IH]; intros i x w; simpl; [discriminate|].
  destruct (x !! var); [|discriminate]. destruct (delta !! i); [|discriminate]. apply IH.
Qed.

Lemma ApplyUpdate_returns p x0 delta :
  (exists x, ApplyUpdate p x0 delta = Ok x) <->
  length delta <= length x0 /\ length (m_varIdx p) <= length delta /\
  Forall (fun var => var < length x0) (m_varIdx p).
Proof.
  unfold ApplyUpdate. destruct (decide _) as [Hle|Hgt].
  - rewrite add_deltas_returns. simpl. intuition lia.
  - split; [intros [? ?]; discriminate | intros [? _]; lia].
Qed.

(** X1: whatever the active set is (in any order, with repeats), a call of
    [ApplyUpdate] that returns gives a vector as long as [x0] that agrees
    with [x0] at every coordinate outside the active set. *)
Theorem ApplyUpdate_keeps_inactive (p : LeastSquaresProblem) (x0 delta x : Vec) :
  ApplyUpdate p x0 delta = Ok x ->
  length x = length x0 /\ forall k, k ∉ m_varIdx p -> x !! k = x0 !! k.
Proof.
  unfold ApplyUpdate. destruct (decide _); [|discriminate]. apply add_deltas_frame.
Qed.

(** X2: a coordinate that the active set names several times receives all
    the deltas of the positions that name it, added one after the other in
    the order of the active set; a coordinate named once receives its one
    delta, and one named nowhere is left alone. *)
Theorem ApplyUpdate_accumulates (p : LeastSquaresProblem) (x0 delta x : Vec) :
  ApplyUpdate p x0 delta = Ok x ->
  forall k a, x0 !! k = Some a ->
    x !! k = Some (foldl PrimFloat.add a (deltas_at (m_varIdx p) delta k)).
Proof.
  unfold ApplyUpdate. destruct (decide _); [|discriminate].
  intros E k a Hk. exact (add_deltas_sum _ _ 0 _ _ k a E Hk).
Qed.

(** X3: [ApplyUpdate] has a result exactly when [delta] is no longer than
    [x0] (its assertion), has an entry for every position of the active set,
    and every active index is within [x0]; otherwise it reads or writes out
    of range or fails its assertion, and it never throws. *)
Theorem ApplyUpdate_returns_iff (p : LeastSquaresProblem) (x0 delta : Vec) :
  ((exists x, ApplyUpdate p x0 delta = Ok x) <->
     length delta <= length x0 /\ length (m_varIdx p) <= length delta /\
     Forall (fun var => var < length x0) (m_varIdx p)) /\
  ((forall x, ApplyUpdate p x0 delta <> Ok x) -> ApplyUpdate p x0 delta = Fault).
Proof.
  split; [apply ApplyUpdate_returns|].
  intros H. unfold ApplyUpdate in *. destruct (decide _); trivial.
  destruct (add_deltas _ _ _ _) as [x|w|] eqn:E; trivial.
  - now destruct (H x).
  - now destruct (add_deltas_no_throw _ _ _ _ _ E).
Qed.

(** X4: once [SetActiveVars] has accepted a list of indices, [ApplyUpdate]
    on a vector of length [m_vars] and a [delta] with an entry for every
    active position, and no longer than the vector, has a result, of
    length [m_vars]: the check of [SetActiveVars] keeps every write of
    [ApplyUpdate] in range. *)
Theorem SetActiveVars_guards_ApplyUpdate (p : LeastSquaresProblem)
    (varIdx : Indices) (x0 delta : Vec) :
  (SetActiveVars p varIdx).1 = true ->
  length x0 = m_vars p ->
  length varIdx <= length delta -> length delta <= length x0 ->
  exists x, ApplyUpdate (SetActiveVars p varIdx).2 x0 delta = Ok x /\
    length x = m_vars p.
Proof.
  intros Hset Hx Hd1 Hd2. unfold SetActiveVars in *.
  destruct (all_below (m_vars p) varIdx) eqn:Hall; [|discriminate]. simpl.
  assert (exists x, ApplyUpdate (with_varIdx p varIdx) x0 delta = Ok x) as [x E].
  { apply ApplyUpdate_returns. repeat split; trivial. simpl.
    apply Forall_forall. intros var Hvar.
    destruct (decide (m_vars p <= var)) as [Hge|]; [|lia].
    assert (all_below (m_vars p) varIdx = false) as Hf
      by (apply all_below_false; eauto).
    congruence. }
  exists x. split; trivial.
  apply ApplyUpdate_frame in E as [El _]. lia.
Qed.

Lemma ApplyUpdate_keeps_inactive_witness :
  length [11; 2; 23]%float = length [1; 2; 3]%float /\
  forall k, k ∉ m_varIdx Samples.planar ->
    [11; 2; 23]%float !! k = [1; 2; 3]%float !! k.
Proof.
  exact (ApplyUpdate_keeps_inactive Samples.planar [1; 2; 3]%float [10; 20]%float
           [11; 2; 23]%float eq_refl).
Defined.

Lemma ApplyUpdate_accumulates_witness :
  [21; 2; 43]%float !! 2
  = Some (foldl PrimFloat.add 3%float
            (deltas_at (m_varIdx Edge.revisit) [10; 20; 30]%float 2)).
Proof.
  exact (ApplyUpdate_accumulates Edge.revisit [1; 2; 3]%float [10; 20; 30]%float
           [21; 2; 43]%float eq_refl 2 3%float eq_refl).
Defined.

Lemma SetActiveVars_guards_ApplyUpdate_witness :
  exists x,
    ApplyUpdate (SetActiveVars Samples.planar [2; 0]).2 [1; 2; 3]%float [10; 20]%float
    = Ok x /\ length x = m_vars Samples.planar.
Proof.
  apply (SetActiveVars_guards_ApplyUpdate Samples.planar [2; 0] [1; 2; 3]%float
           [10; 20]%float); [reflexivity | reflexivity | simpl; lia | simpl; lia].
Defined.

(** ** ComputeJacobian on any problem *)

Lemma make_slices_dealt (p : LeastSquaresProblem) (x y0 : Vec) (vars : Indices) :
  forall i qs,
    0 < m_diffThreads p -> length qs = m_diffThreads p ->
    (masking p = true -> Forall (fun var => var < cols (m_jacobianPattern p)) vars) ->
    make_slices p (masking p) x y0 vars i qs
    = Ok (imap (fun t q => q ++ (slice_for p x y0 <$> dealt (m_diffThreads p) i vars t)) qs).
Proof.
  induction vars as [|var rest IH]; intros i qs HT Hlen Hpat; simpl.
  - f_equal. apply list_eq. intros t. rewrite list_lookup_imap.
    destruct (qs !! t); simpl; trivial. unfold dealt. simpl. now rewrite app_nil_r.
  - rewrite decide_False by lia.
    assert ((if masking p then pattern_col (m_jacobianPattern p) var else Ok [])
            = Ok (if masking p then Mat_col 0%Z (m_jacobianPattern p) var else [])) as ->.
    { destruct (masking p); trivial. specialize (Hpat eq_refl).
      apply Forall_cons in Hpat as [Hv _]. unfold pattern_col. now rewrite decide_True. }
    simpl. rewrite IH; trivial.
    + f_equal. apply list_eq. intros t. rewrite !list_lookup_imap.
      unfold dealt. simpl. rewrite filter_cons. simpl.
      destruct (decide (i mod m_diffThreads p = t)) as [<-|Hne].
      * rewrite list_lookup_alter_eq. destruct (qs !! _); simpl; trivial.
        now rewrite <- app_assoc.
      * rewrite list_lookup_alter_ne by exact Hne. reflexivity.
    + now rewrite length_alter.
    + intros Hm. specialize (Hpat Hm). now apply Forall_cons in Hpat as [_ ?].
Qed.

Lemma elem_of_dealt T i vars t c var :
  (c, var) ∈ dealt T i vars t <-> c mod T = t /\ i <= c /\ vars !! (c - i) = Some var.
Proof.
  unfold dealt. rewrite list_elem_of_filter. simpl.
  rewrite list_elem_of_lookup. split.
  - intros [Ht (j & Hj)]. apply lookup_zip_with_Some in Hj as (a & b & E & Ha & Hb).
    injection E as -> ->. apply lookup_seq in Ha as [-> _].
    repeat split; trivial; [lia|]. now replace (i + j - i) with j by lia.
  - intros (Ht & Hi & Hv). split; trivial. exists (c - i).
    apply lookup_zip_with_Some. exists c, var. repeat split; trivial.
    apply lookup_seq. split; [lia|]. eapply lookup_lt_Some, Hv.
Qed.

Lemma Mat_sub_eq (a b : Vec) :
  Mat_sub a b = if sub_defined a b then Ok (sub_value a b) else Fault.
Proof.
  unfold sub_defined, sub_value, Mat_sub.
  destruct (decide (length a = length b)); trivial.
  destruct a as [|sa a], b as [|sb b]; trivial.
  destruct (scalar_like (sa :: a)); trivial.
  destruct (scalar_like (sb :: b)); trivial.
Qed.

Lemma Mat_sub_same_length (a b : Vec) :
  length a = length b ->
  sub_defined a b = true /\ sub_value a b = zip_with PrimFloat.sub a b.
Proof.
  intros H. unfold sub_defined, sub_value, Mat_sub. now rewrite decide_True.
Qed.

Lemma DiffThread_slice_eq p sl J :
  DiffThread_slice p sl J
  = if decide (runs_ok p sl)
    then Ok (Mat_write_col J (sl_col sl) (slice_column p sl)) else Fault.
Proof.
  destruct (decide (runs_ok p sl)) as [[Hv Hl]|Hn];
    unfold DiffThread_slice, slice_column, perturb in *.
  - destruct (lookup_lt_is_Some_2 _ _ Hv) as [xv Ex]. rewrite Ex in *.
    now rewrite Mat_sub_eq, Hl.
  - destruct (sl_x sl !! sl_var sl) as [xv|] eqn:Ex; trivial.
    rewrite Mat_sub_eq.
    destruct (sub_defined _ _) eqn:Hl; trivial.
    destruct Hn. split; [eapply lookup_lt_Some, Ex|].
    unfold perturb. now rewrite Ex.
Qed.

Lemma write_all_app p q q' J :
  write_all p (q ++ q') J = write_all p q' (write_all p q J).
Proof. apply foldl_app. Qed.

Lemma DiffThread_eq p q : forall J,
  DiffThread p q J
  = if decide (Forall (runs_ok p) q) then Ok (write_all p q J) else Fault.
Proof.
  induction q as [|sl q IH]; intros J; [reflexivity|].
  cbn [DiffThread]. rewrite DiffThread_slice_eq.
  destruct (decide (runs_ok p sl)) as [Hsl|Hsl]; cbn [mbind outcome_bind].
  - rewrite IH.
    destruct (decide (Forall (runs_ok p) q)) as [Hq|Hq],
             (decide (Forall (runs_ok p) (sl :: q))) as [H|H]; trivial.
    + destruct H. now constructor.
    + destruct Hq. now apply Forall_cons in H as [_ ?].
  - destruct (decide (Forall (runs_ok p) (sl :: q))) as [H|H]; trivial.
    now apply Forall_cons in H as [? _].
Qed.

Lemma join_all_eq p qs : forall J,
  join_all p qs J
  = if decide (Forall (Forall (runs_ok p)) qs)
    then Ok (write_all p (concat qs) J) else Fault.
Proof.
  induction qs as [|q qs IH]; intros J; [reflexivity|].
  cbn [join_all]. rewrite DiffThread_eq.
  destruct (decide (Forall (runs_ok p) q)) as [Hq|Hq]; cbn [mbind outcome_bind].
  - rewrite IH. cbn [concat]. rewrite write_all_app.
    destruct (decide (Forall (Forall (runs_ok p)) qs)) as [Hqs|Hqs],
             (decide (Forall (Forall (runs_ok p)) (q :: qs))) as [H|H]; trivial.
    + destruct H. now constructor.
    + destruct Hqs. now apply Forall_cons in H as [_ ?].
  - destruct (decide (Forall (Forall (runs_ok p)) (q :: qs))) as [H|H]; trivial.
    now apply Forall_cons in H as [? _].
Qed.

Lemma write_all_shape p q : forall J,
  rows (write_all p q J) = rows J /\ cols (write_all p q J) = cols J /\
  (Mat_wf J -> Mat_wf (write_all p q J)).
Proof.
  induction q as [|sl q IH]; intros J; simpl; [auto|].
  destruct (IH (Mat_write_col J (sl_col sl) (slice_column p sl))) as (-> & -> & Hwf).
  destruct (Mat_write_col_dims J (sl_col sl) (slice_column p sl)) as [-> ->].
  split; [|split]; trivial. intros HJ. now apply Hwf, Mat_write_col_wf.
Qed.

Lemma imap_replicate_nil {A} (g : nat -> list A) n :
  imap (fun t q => q ++ g t) (replicate n []) = g <$> seq 0 n.
Proof.
  apply list_eq. intros t. rewrite list_lookup_imap, list_lookup_fmap.
  destruct (decide (t < n)) as [Ht|Ht].
  - rewrite lookup_replicate_2, lookup_seq_lt by lia. reflexivity.
  - rewrite (proj1 (lookup_replicate_None n [] t)), lookup_seq_ge by lia. reflexivity.
Qed.

Lemma Jacobian_setup_eq p x y :
  0 < m_diffThreads p -> pattern_covers p ->
  Jacobian_setup p x y
  = Ok (Mat_zeros (m_conds p) (length (m_varIdx p)), y_used p x y,
        queues p x (y_used p x y)).
Proof.
  intros HT Hpat. unfold Jacobian_setup. fold (masking p). fold (y_used p x y).
  rewrite make_slices_dealt; trivial; [|apply length_replicate].
  simpl. now rewrite imap_replicate_nil.
Qed.

Lemma make_slices_no_thread p m x y vars i qs :
  m_diffThreads p = 0 -> vars <> [] -> make_slices p m x y vars i qs = Fault.
Proof. intros HT. destruct vars; [congruence|]. simpl. now rewrite decide_True. Qed.

Lemma make_slices_throws p x y vars : forall i qs,
  0 < m_diffThreads p -> masking p = true ->
  Exists (fun var => cols (m_jacobianPattern p) <= var) vars ->
  exists w, make_slices p (masking p) x y vars i qs = Throw w.
Proof.
  induction vars as [|var rest IH]; intros i qs HT Hm Hex; [inversion Hex|].
  simpl. rewrite decide_False by lia. rewrite Hm. unfold pattern_col.
  destruct (decide (var < cols _)) as [Hlt|Hge]; simpl; [|eauto].
  rewrite <- Hm. apply IH; trivial. apply Exists_cons in Hex as [?|?]; [lia | trivial].
Qed.

Lemma slice_runs_defined p x y0 var :
  slice_runs p x y0 var -> slice_defined p x y0 var.
Proof.
  intros [Hv Hl]. split; trivial. now apply Mat_sub_same_length.
Qed.

Lemma queues_run p x y0 :
  0 < m_diffThreads p ->
  Forall (Forall (runs_ok p)) (queues p x y0)
  <-> Forall (slice_defined p x y0) (m_varIdx p).
Proof.
  intros HT. unfold queues. rewrite !Forall_forall. split.
  - intros H var Hvar. apply list_elem_of_lookup in Hvar as [c Hc].
    assert (Forall (runs_ok p)
              (slice_for p x y0 <$> dealt (m_diffThreads p) 0 (m_varIdx p)
                                      (c mod m_diffThreads p))) as Hq.
    { apply H. apply list_elem_of_fmap. eexists. split; [reflexivity|].
      apply elem_of_seq. split; [lia|]. simpl. apply Nat.mod_upper_bound. lia. }
    rewrite Forall_forall in Hq. apply (Hq (slice_for p x y0 (c, var))).
    apply (list_elem_of_fmap_2 (slice_for p x y0) _ (c, var)).
    apply elem_of_dealt. rewrite Nat.sub_0_r. repeat split; trivial. lia.
  - intros H q Hq. apply list_elem_of_fmap in Hq as (t & -> & _).
    apply Forall_forall. intros sl Hsl.
    apply list_elem_of_fmap in Hsl as ([c var] & -> & Hin).
    apply elem_of_dealt in Hin as (_ & _ & Hv).
    apply (H var). eapply list_elem_of_lookup_2, Hv.
Qed.

Lemma run_threads_nil p sched : forall n J,
  run_threads p sched (replicate n []) J = Ok (replicate n [], J).
Proof.
  induction sched as [|k sched IH]; intros n J; simpl; trivial.
  destruct (replicate n [] !! k) as [q|] eqn:E; trivial.
  apply lookup_replicate in E as [-> _]. apply IH.
Qed.

Lemma pattern_covers_dec p :
  pattern_covers p \/
  (masking p = true /\
   Exists (fun var => cols (m_jacobianPattern p) <= var) (m_varIdx p)).
Proof.
  unfold pattern_covers. destruct (masking p); [|left; discriminate].
  destruct (decide (Forall (fun var => var < cols (m_jacobianPattern p)) (m_varIdx p)))
    as [H|H]; [now left | right]. split; trivial.
  apply not_Forall_Exists in H; [|apply _].
  eapply Exists_impl; [exact H|]. simpl. lia.
Qed.

(** The three outcomes of the call. *)
Lemma ComputeJacobian_cases p x y :
  (m_varIdx p = [] /\
   ComputeJacobian p x y
   = Ok {| jac := Mat_zeros (m_conds p) 0; y_io := y_used p x y; self := p |}) \/
  (m_varIdx p <> [] /\ m_diffThreads p = 0 /\ ComputeJacobian p x y = Fault) \/
  (m_varIdx p <> [] /\ 0 < m_diffThreads p /\ masking p = true /\
   Exists (fun var => cols (m_jacobianPattern p) <= var) (m_varIdx p) /\
   exists w, ComputeJacobian p x y = Throw w) \/
  (m_varIdx p <> [] /\ 0 < m_diffThreads p /\ pattern_covers p /\
   ComputeJacobian p x y
   = if decide (Forall (slice_defined p x (y_used p x y)) (m_varIdx p))
     then Ok {| jac := write_all p (concat (queues p x (y_used p x y)))
                         (Mat_zeros (m_conds p) (length (m_varIdx p)));
                y_io := y_used p x y; self := p |}
     else Fault).
Proof.
  destruct (m_varIdx p) as [|var0 rest] eqn:Eact.
  { left. split; trivial. unfold ComputeJacobian, Jacobian_setup. rewrite Eact. simpl.
    now rewrite join_all_idle. }
  right. rewrite <- Eact.
  assert (m_varIdx p <> []) as Hne by (rewrite Eact; discriminate).
  destruct (decide (m_diffThreads p = 0)) as [HT|HT].
  { left. repeat split; trivial. unfold ComputeJacobian, Jacobian_setup.
    now rewrite make_slices_no_thread. }
  right. assert (0 < m_diffThreads p) as HT' by lia.
  destruct (pattern_covers_dec p) as [Hcov|[Hm Hex]].
  - right. repeat split; trivial. unfold ComputeJacobian.
    rewrite Jacobian_setup_eq by trivial. cbn [mbind outcome_bind].
    rewrite join_all_eq.
    destruct (decide (Forall (Forall (runs_ok p)) _)) as [H|H],
             (decide (Forall (slice_defined p x (y_used p x y)) _)) as [H'|H']; trivial.
    + destruct H'. now apply queues_run.
    + destruct H. now apply queues_run.
  - left. repeat split; trivial.
    destruct (make_slices_throws p x (y_used p x y) (m_varIdx p) 0
                (replicate (m_diffThreads p) []) HT' Hm Hex) as [w Hw].
    exists w. unfold ComputeJacobian, Jacobian_setup.
    fold (masking p). fold (y_used p x y). now rewrite Hw.
Qed.



(** X7: the matrix that [ComputeJacobian] returns has [m_conds] rows, one
    column for every position of the active set, and rows of that length,
    whatever the residual function returns. *)
Theorem ComputeJacobian_shape (p : LeastSquaresProblem) (x y : Vec) (r : JacobianCall) :
  ComputeJacobian p x y = Ok r ->
  rows (jac r) = m_conds p /\ cols (jac r) = length (m_varIdx p) /\ Mat_wf (jac r).
Proof.
  destruct (ComputeJacobian_cases p x y)
    as [[Ha E]|[(Ha & HT & E)|[(Ha & HT & Hm & Hex & w & E)|(Ha & HT & Hcov & E)]]];
    rewrite E; try discriminate.
  - intros H. injection H as <-. rewrite Ha. simpl. repeat split; apply Mat_zeros_wf.
  - destruct (decide _); [|discriminate]. intros H. injection H as <-. simpl.
    destruct (write_all_shape p (concat (queues p x (y_used p x y)))
                (Mat_zeros (m_conds p) (length (m_varIdx p)))) as (-> & -> & Hwf).
    repeat split; apply Hwf, Mat_zeros_wf.
Qed.

Lemma Mat_write_col_skip M k v : length v <> rows M -> Mat_write_col M k v = M.
Proof. intros H. unfold Mat_write_col. now rewrite decide_False. Qed.

Lemma write_all_skip p q J :
  Forall (fun sl => length (slice_column p sl) <> rows J) q -> write_all p q J = J.
Proof.
  induction q as [|sl q IH]; trivial.
  intros H. apply Forall_cons in H as [Hsl Hq].
  change (write_all p (sl :: q) J)
    with (write_all p q (Mat_write_col J (sl_col sl) (slice_column p sl))).
  rewrite Mat_write_col_skip by exact Hsl. now apply IH.
Qed.

Lemma elem_of_concat {A} (a : A) (ls : list (list A)) :
  a ∈ concat ls -> exists l, a ∈ l /\ l ∈ ls.
Proof.
  induction ls as [|l ls IH]; simpl; [intros H; inversion H|].
  intros H. apply elem_of_app in H as [H|H].
  - exists l. split; [trivial | left].
  - destruct (IH H) as (l' & ? & ?). exists l'. split; [trivial | now right].
Qed.

Lemma in_queues p x y0 sl :
  sl ∈ concat (queues p x y0) ->
  exists c var, m_varIdx p !! c = Some var /\ sl = slice_for p x y0 (c, var).
Proof.
  intros H. apply elem_of_concat in H as (q & Hsl & Hq). unfold queues in Hq.
  apply list_elem_of_fmap in Hq as (t & -> & _).
  apply list_elem_of_fmap in Hsl as ([c var] & -> & Hin).
  apply elem_of_dealt in Hin as (_ & _ & Hv). rewrite Nat.sub_0_r in Hv. eauto.
Qed.

(** X8: a residual whose length is not [m_conds] goes unnoticed: when the
    residual at every perturbed point is as long as the [y] that the call
    leaves, and that [y] is not empty and not of length [m_conds], the
    matrix returned is the zero matrix it was initialised to, because
    [cv::divide] re-allocates the column view instead of writing through
    it. *)
Theorem ComputeJacobian_wrong_length (p : LeastSquaresProblem) (x y : Vec)
    (r : JacobianCall) :
  ComputeJacobian p x y = Ok r ->
  Forall (fun var => length (call p (perturb x var (m_diffStep p))) = length (y_io r))
    (m_varIdx p) ->
  y_io r <> [] ->
  length (y_io r) <> m_conds p ->
  jac r = Mat_zeros (m_conds p) (length (m_varIdx p)).
Proof.
  destruct (ComputeJacobian_cases p x y)
    as [[Ha E]|[(Ha & HT & E)|[(Ha & HT & Hm & Hex & w & E)|(Ha & HT & Hcov & E)]]];
    rewrite E; try discriminate.
  - intros H _ _ _. injection H as <-. now rewrite Ha.
  - destruct (decide _) as [Hruns|]; [|discriminate]. intros H. injection H as <-. simpl.
    intros Hsame _ Hlen. apply write_all_skip. apply Forall_forall. intros sl Hsl.
    apply in_queues in Hsl as (c & var & Hv & ->).
    rewrite Forall_forall in Hsame.
    pose proof (Hsame var (list_elem_of_lookup_2 _ _ _ Hv)) as Hl.
    destruct (Mat_sub_same_length _ _ Hl) as [_ Hval].
    unfold slice_column. simpl. rewrite Hval, length_fmap, length_zip_with, Hl. lia.
Qed.

Lemma write_all_pattern p pattern x y0 (l : list (nat * nat)) : forall J,
  write_all (with_pattern p pattern) (slice_for (with_pattern p pattern) x y0 <$> l) J
  = write_all p (slice_for p x y0 <$> l) J.
Proof. induction l as [|iv l IH]; intros J; simpl; trivial. Qed.

Lemma write_all_queues_pattern p pattern x y0 (ts : list nat) : forall J,
  write_all (with_pattern p pattern)
    (concat ((fun t => slice_for (with_pattern p pattern) x y0
                         <$> dealt (m_diffThreads p) 0 (m_varIdx p) t) <$> ts)) J
  = write_all p
      (concat ((fun t => slice_for p x y0
                           <$> dealt (m_diffThreads p) 0 (m_varIdx p) t) <$> ts)) J.
Proof.
  induction ts as [|t ts IH]; intros J; simpl; trivial.
  now rewrite !write_all_app, write_all_pattern, IH.
Qed.

(** X9: the pattern has no effect on the result: replacing it by any other
    pattern (or by none) gives the same matrix, the same [y] and the same
    outcome, as long as each pattern that is present has a column for every
    active variable. *)
Theorem ComputeJacobian_ignores_pattern (p : LeastSquaresProblem)
    (pattern : Mat Z) (x y : Vec) :
  pattern_covers p -> pattern_covers (with_pattern p pattern) ->
  ComputeJacobian (with_pattern p pattern) x y
  = outcome_map
      (fun r => {| jac := jac r; y_io := y_io r; self := with_pattern p pattern |})
      (ComputeJacobian p x y).
Proof.
  intros Hp Hq.
  destruct (ComputeJacobian_cases p x y)
    as [[Ha E]|[(Ha & HT & E)|[(Ha & HT & Hm & Hex & w & E)|(Ha & HT & Hcov & E)]]];
    rewrite E; simpl.
  - destruct (ComputeJacobian_cases (with_pattern p pattern) x y)
      as [[Ha' E']|[(Ha' & _)|[(Ha' & _)|(Ha' & _)]]]; try contradiction.
    exact E'.
  - destruct (ComputeJacobian_cases (with_pattern p pattern) x y)
      as [[Ha' E']|[(_ & _ & E')|[(_ & HT' & _)|(_ & HT' & _)]]];
      try contradiction; trivial; simpl in HT'; lia.
  - specialize (Hp Hm). apply Exists_exists in Hex as (var & Hin & Hge).
    rewrite Forall_forall in Hp. specialize (Hp var Hin). lia.
  - destruct (ComputeJacobian_cases (with_pattern p pattern) x y)
      as [[Ha' E']|[(_ & HT' & _)|[(_ & _ & Hm' & Hex' & _)|(_ & _ & _ & E')]]].
    + contradiction.
    + simpl in HT'. lia.
    + specialize (Hq Hm'). apply Exists_exists in Hex' as (var & Hin & Hge).
      rewrite Forall_forall in Hq. specialize (Hq var Hin). lia.
    + rewrite E'.
      destruct (decide (Forall (slice_defined p x (y_used p x y)) (m_varIdx p))) as [H1|H1],
        (decide (Forall (slice_defined (with_pattern p pattern) x
                           (y_used (with_pattern p pattern) x y))
                   (m_varIdx (with_pattern p pattern)))) as [H2|H2];
        simpl; trivial; try (destruct (H1 H2)); try (destruct (H2 H1)).
      unfold queues at 2.
      rewrite <- (write_all_queues_pattern p pattern x (y_used p x y)
                    (seq 0 (m_diffThreads p))).
      reflexivity.
Qed.

Lemma slice_for_col_var p x y0 (l : list (nat * nat)) :
  (fun sl => (sl_col sl, sl_var sl)) <$> (slice_for p x y0 <$> l) = l.
Proof. induction l as [|[c v] l IH]; [trivial|]. rewrite !fmap_cons, IH. reflexivity. Qed.

(** X10: the slices are dealt round-robin: with [T] threads, the queue of
    thread [t] holds, in increasing order, exactly the columns [i] with
    [i mod T = t], each with the [i]-th active variable, and every slice
    carries the [x] and the [y] of the call. *)
Theorem ComputeJacobian_round_robin (p : LeastSquaresProblem) (x y : Vec)
    (J : Mat float) (y0 : Vec) (qs : list JacobianSlices) :
  0 < m_diffThreads p ->
  Jacobian_setup p x y = Ok (J, y0, qs) ->
  length qs = m_diffThreads p /\
  forall t q, qs !! t = Some q ->
    (fun sl => (sl_col sl, sl_var sl)) <$> q
    = filter (fun iv => iv.1 mod m_diffThreads p = t)
        (zip (seq 0 (length (m_varIdx p))) (m_varIdx p)) /\
    Forall (fun sl => sl_x sl = x /\ sl_y sl = y0) q.
Proof.
  intros HT E.
  destruct (pattern_covers_dec p) as [Hcov|[Hm Hex]].
  - rewrite Jacobian_setup_eq in E by trivial. injection E as <- <- <-.
    unfold queues. split; [now rewrite length_fmap, length_seq|].
    intros t q Hq. rewrite list_lookup_fmap in Hq.
    destruct (seq 0 (m_diffThreads p) !! t) as [t'|] eqn:Et; [|discriminate].
    apply lookup_seq in Et as [-> _]. injection Hq as <-. simpl. split.
    + apply slice_for_col_var.
    + apply Forall_fmap, Forall_forall. intros iv _. simpl. auto.
  - destruct (make_slices_throws p x (y_used p x y) (m_varIdx p) 0
                (replicate (m_diffThreads p) []) HT Hm Hex) as [w Hw].
    unfold Jacobian_setup in E. fold (masking p) in E. fold (y_used p x y) in E.
    rewrite Hw in E. discriminate.
Qed.

(** X11: with an empty active set [ComputeJacobian] returns the matrix of
    [m_conds] rows and no column under every schedule, for any [x] and any
    number of threads, zero included; [y] is still filled in when it was
    empty. *)
Theorem ComputeJacobian_empty_active (p : LeastSquaresProblem) (sched : list nat)
    (x y : Vec) :
  m_varIdx p = [] ->
  let r := {| jac := Mat_zeros (m_conds p) 0; y_io := y_used p x y; self := p |} in
  ComputeJacobian p x y = Ok r /\
  ComputeJacobian_sched p sched x y = Ok (replicate (m_diffThreads p) [], r).
Proof.
  intros Ha. unfold ComputeJacobian, ComputeJacobian_sched, Jacobian_setup.
  rewrite Ha. simpl. now rewrite join_all_idle, run_threads_nil.
Qed.

Lemma write_all_col_ne p q k : forall J,
  Mat_wf J -> Forall (fun sl => sl_col sl <> k) q ->
  Mat_col 0%float (write_all p q J) k = Mat_col 0%float J k.
Proof.
  induction q as [|sl q IH]; intros J HJ Hq; trivial.
  apply Forall_cons in Hq as [Hsl Hq].
  change (write_all p (sl :: q) J)
    with (write_all p q (Mat_write_col J (sl_col sl) (slice_column p sl))).
  rewrite IH; trivial; [|now apply Mat_write_col_wf].
  now apply Mat_col_write_ne.
Qed.

Lemma write_all_col p q k v : forall J,
  Mat_wf J -> k < cols J -> length v = rows J ->
  Forall (fun sl => sl_col sl = k -> slice_column p sl = v) q ->
  Exists (fun sl => sl_col sl = k) q ->
  Mat_col 0%float (write_all p q J) k = v.
Proof.
  induction q as [|sl q IH]; intros J HJ Hk Hv Hall Hex; [inversion Hex|].
  apply Forall_cons in Hall as [Hsl Hall].
  change (write_all p (sl :: q) J)
    with (write_all p q (Mat_write_col J (sl_col sl) (slice_column p sl))).
  destruct (Mat_write_col_dims J (sl_col sl) (slice_column p sl)) as [Er Ec].
  destruct (decide (Exists (fun sl => sl_col sl = k) q)) as [Hq|Hq].
  - apply IH; trivial; [now apply Mat_write_col_wf | lia | lia].
  - apply Exists_cons in Hex as [Hc|Hex]; [|contradiction].
    rewrite write_all_col_ne; [| now apply Mat_write_col_wf |].
    + rewrite Hc, (Hsl Hc). now apply Mat_col_write_eq.
    + apply Forall_forall. intros sl' Hin Hc'. apply Hq, Exists_exists. eauto.
Qed.

Lemma queues_have p x y0 k var :
  0 < m_diffThreads p -> m_varIdx p !! k = Some var ->
  slice_for p x y0 (k, var) ∈ concat (queues p x y0).
Proof.
  intros HT Hk. unfold queues.
  assert (k mod m_diffThreads p < m_diffThreads p) as Ht
    by (apply Nat.mod_upper_bound; lia).
  assert (forall (ts : list nat) t, t ∈ ts ->
            (k, var) ∈ dealt (m_diffThreads p) 0 (m_varIdx p) t ->
            slice_for p x y0 (k, var)
            ∈ concat ((fun t => slice_for p x y0
                                  <$> dealt (m_diffThreads p) 0 (m_varIdx p) t) <$> ts))
    as Hgen.
  { induction ts as [|t' ts IH]; intros t Ht' Hin; [inversion Ht'|].
    simpl. apply elem_of_app. apply elem_of_cons in Ht' as [->|Ht'].
    - left. now apply (list_elem_of_fmap_2 (slice_for p x y0) _ (k, var)).
    - right. eapply IH; eauto. }
  apply (Hgen _ (k mod m_diffThreads p)).
  - apply elem_of_seq. lia.
  - apply elem_of_dealt. rewrite Nat.sub_0_r. repeat split; trivial. lia.
Qed.


(** ** The solver on any problem *)

(** Binary64 [<] is transitive. *)
Lemma SFltb_trans x y z : SFltb x y = true -> SFltb y z = true -> SFltb x z = true.
Proof.
  unfold SFltb.
  destruct x as [sx|sx| |sx mx ex], y as [sy|sy| |sy my ey], z as [sz|sz| |sz mz ez];
    try (try destruct sx; try destruct sy; try destruct sz; cbv; congruence).
  unfold SFcompare.
  change (PosDef.Pos.compare_cont Eq mx my) with (mx ?= my)%positive.
  change (PosDef.Pos.compare_cont Eq my mz) with (my ?= mz)%positive.
  change (PosDef.Pos.compare_cont Eq mx mz) with (mx ?= mz)%positive.
  destruct sx, sy, sz; try congruence;
    destruct (Z.compare_spec ex ey), (Z.compare_spec ey ez), (Z.compare_spec ex ez);
    try congruence; try lia;
    destruct (Pos.compare_spec mx my), (Pos.compare_spec my mz), (Pos.compare_spec mx mz);
    simpl; try congruence; try lia.
Qed.

Lemma ltb_trans (a b c : float) :
  (a <? b)%float = true -> (b <? c)%float = true -> (a <? c)%float = true.
Proof. rewrite !ltb_spec. apply SFltb_trans. Qed.

Section Bounds.
Context (alg : LevenbergMarquardtAlgorithm) (nm : Numerics)
        (f : LeastSquaresProblem) (x0 : Vec).

Lemma convergence_control_false s b t dr sr :
  convergence_control alg s b t dr sr = false ->
  converged s = false /\ updates s < maxCount (m_term alg) /\
  (b = false -> t < maxCount (m_term alg)).
Proof using Type.
  unfold convergence_control. intros H.
  apply orb_false_iff in H as [H H4]. apply orb_false_iff in H as [H _].
  apply orb_false_iff in H as [H H2]. apply orb_false_iff in H as [H1 H2'].
  apply bool_decide_eq_false in H2'. repeat split; trivial; [lia|].
  intros ->. simpl in H4. apply orb_false_iff in H4 as [_ H4].
  apply bool_decide_eq_false in H4. lia.
Qed.

Lemma cap_ge alg' : maxCount (m_term alg') <= cap alg' /\ 1 <= cap alg'.
Proof using Type. unfold cap. lia. Qed.

Lemma after_trial_solve_inv s v xd xt :
  solve_inv alg nm f x0 s -> converged s = false ->
  ApplyUpdate f (x_best s) xd = Ok xt ->
  let sv := after_trial alg nm f s v xd xt in
  solve_inv alg nm f x0 sv.1 /\ trials sv.2 = S (trials v) /\
  (pending sv.1 sv.2 = true -> S (trials v) < cap alg /\ updates sv.1 = updates s) /\
  (better sv.2 = true -> updates sv.1 = S (updates s)) /\
  (better sv.2 = false -> updates sv.1 = updates s).
Proof using Type.
  intros (Hst & Hpos & Hlen & Hfr & Himp & Hle & Hlt) Hc Happ sv.
  pose proof (after_trial_inv alg nm f s v xd xt Hst) as Hst'.
  apply ApplyUpdate_frame in Happ as [Al Af].
  specialize (Hlt Hc). destruct (cap_ge alg) as [HN H1].
  subst sv. unfold after_trial in *. cbv zeta in *.
  set (de := (e_best s - rms nm (call f xt))%float) in *.
  destruct (0 <? de)%float eqn:Ede.
  - rewrite accept_or_reject_accept in * by exact Ede. simpl in *.
    split; [|split; [trivial|split; [|split]]]; try discriminate; trivial.
    unfold solve_inv. simpl.
    split; [exact Hst'|]. split; [apply Forall_app; split; [trivial|repeat constructor; trivial]|].
    split; [lia|]. split; [intros k Hk; rewrite Af by trivial; auto|].
    split; [|split; [lia|]].
    + right. apply DoubleFacts.sub_pos_lt in Ede.
      destruct Hst as (Hy & He & _).
      destruct Himp as [[_ Hx]|Hlt0].
      * now rewrite <- Hx, <- Hy, <- He.
      * eapply ltb_trans; eauto.
    + intros H. apply convergence_control_false in H as (_ & H & _). simpl in H. lia.
  - rewrite accept_or_reject_reject in * by exact Ede. simpl in *.
    split; [|split; [trivial|split; [|split]]]; try discriminate; trivial.
    + unfold solve_inv. simpl. repeat split; trivial; try apply Hst'.
    + unfold pending. simpl. intros H.
      apply negb_true_iff, convergence_control_false in H as (_ & _ & H).
      specialize (H eq_refl). split; [lia | trivial].
Qed.

Lemma step_solve_cfg c c' :
  solve_cfg alg nm f x0 c -> step alg nm f c = Ok c' ->
  solve_cfg alg nm f x0 c' /\ (steps_left alg c' < steps_left alg c \/ steps_left alg c = 0).
Proof using Type.
  destruct (cap_ge alg) as [HN H1].
  destruct c as [s l|s v l|r l k]; simpl; intros Hinv E.
  - unfold outer_bound. destruct (converged s) eqn:Hc.
    + injection E as <-. unfold finish. split.
      * destruct (SetSolution f (x_best s)) eqn:Es; simpl; right; exists s; auto.
      * left. destruct (SetSolution f (x_best s)); simpl; lia.
    + pose proof Hinv as (Hst & Hpos & Hlen & Hfr & Himp & Hle & Hlt).
      specialize (Hlt Hc).
      apply catch_Ok in E as [E|(w & _ & ->)]; [|cbn [solve_cfg steps_left]; split; [auto | left; nia]].
      pose proof (step_inv alg nm f (AtOuter s l) c' Hst) as Hst'.
      simpl in Hst'. rewrite Hc in Hst'. unfold catch in Hst'. rewrite E in Hst'.
      specialize (Hst' eq_refl).
      apply begin_outer_Ok in E as (r & H & D & _ & _ & _ & ->).
      simpl. unfold pending. simpl. rewrite Hc. simpl. split.
      * split; [|split; [lia | intros _; lia]].
        unfold solve_inv. simpl. split; [exact Hst'|]. repeat split; trivial.
      * left. replace (cap alg - updates s) with (S (cap alg - updates s - 1)) by lia.
        rewrite Nat.mul_succ_r. lia.
  - destruct Hinv as (Hinv & Ht & Hp). unfold pending in *.
    destruct (negb (better v) && negb (converged s)) eqn:Hpend.
    + specialize (Hp eq_refl).
      apply andb_true_iff in Hpend as [_ Hc]. apply negb_true_iff in Hc.
      apply catch_Ok in E as [E|(w & _ & ->)]; [|cbn [solve_cfg steps_left]; split; [auto | left; nia]].
      apply trial_Ok in E as (xd & xt & _ & E2 & ->).
      destruct (ill_posed nm v xd); [cbn [solve_cfg steps_left]; split; [auto | left; nia]|].
      destruct (after_trial_solve_inv s v xd xt Hinv Hc E2) as (Hi & Etr & Hpd & Hb & Hnb).
      pose proof Hinv as (_ & _ & _ & _ & _ & _ & Hlt). specialize (Hlt Hc).
      cbv zeta in Hi, Etr, Hpd, Hb, Hnb.
      set (s' := (after_trial alg nm f s v xd xt).1) in *.
      set (v' := (after_trial alg nm f s v xd xt).2) in *.
      cbn [solve_cfg steps_left].
      split; [split; [exact Hi|split; [lia|]]|].
      * intros Hp'. apply Hpd in Hp'. lia.
      * left. unfold pending in *. rewrite Etr.
        destruct (negb (better v') && negb (converged s')) eqn:Hpend'.
        -- destruct (Hpd eq_refl) as [Hlt' ->]. lia.
        -- unfold outer_bound. destruct (converged s') eqn:Hc'; [nia|].
           simpl in Hpend'. rewrite andb_true_r in Hpend'.
           apply negb_false_iff in Hpend'. rewrite (Hb Hpend').
           pose proof Hi as (_ & _ & _ & _ & _ & _ & Hlt'). specialize (Hlt' Hc').
           rewrite (Hb Hpend') in Hlt'.
           replace (cap alg - updates s - 1) with (cap alg - S (updates s)) by lia.
           lia.
    + injection E as <-. simpl. split; [exact Hinv | left; lia].
  - injection E as <-. simpl. split; [exact Hinv | now right].
Qed.

Lemma step_no_throw c w : step alg nm f c <> Throw w.
Proof using Type.
  destruct c as [s l|s v l|r l k]; simpl.
  - destruct (converged s); [discriminate|].
    unfold catch. destruct (begin_outer nm f s l); discriminate.
  - destruct (negb (better v) && negb (converged s)); [|discriminate].
    unfold catch. destruct (trial alg nm f s v l); discriminate.
  - discriminate.
Qed.

Lemma Solve_entry_solve_cfg c0 :
  Solve_entry alg nm f x0 = Ok c0 ->
  solve_cfg alg nm f x0 c0 /\ steps_left alg c0 = (cap alg + 2) * cap alg + 1.
Proof using Type.
  intros E. apply Solve_entry_Ok in E as (_ & l & ->). simpl.
  destruct (cap_ge alg) as [HN H1]. split.
  - unfold solve_inv, state_inv. simpl. repeat split; trivial; try lia. now left.
  - unfold outer_bound. simpl. now rewrite Nat.sub_0_r.
Qed.

Lemma reach_solve_cfg c0 c :
  Solve_entry alg nm f x0 = Ok c0 -> reach alg nm f c0 c -> solve_cfg alg nm f x0 c.
Proof using Type.
  intros E Hr. induction Hr as [|c c' _ IH Hs].
  - now apply Solve_entry_solve_cfg.
  - now apply (step_solve_cfg c c').
Qed.

Lemma run_solve_cfg fuel : forall c res,
  solve_cfg alg nm f x0 c -> run alg nm f fuel c = Ok (Some res) ->
  solve_cfg alg nm f x0 (Returned (ret res) (log res) (sink res)).
Proof using Type.
  induction fuel as [|fuel IH]; intros c res Hc E.
  - destruct c; simpl in E; try discriminate. now injection E as <-.
  - destruct c as [s l|s v l|r l k].
    + cbn [run] in E. apply bind_Ok in E as (c' & Es & E).
      apply (IH c'); trivial. now apply (step_solve_cfg _ _ Hc Es).
    + cbn [run] in E. apply bind_Ok in E as (c' & Es & E).
      apply (IH c'); trivial. now apply (step_solve_cfg _ _ Hc Es).
    + simpl in E. now injection E as <-.
Qed.

Lemma run_terminates fuel : forall c,
  solve_cfg alg nm f x0 c -> steps_left alg c <= fuel ->
  run alg nm f fuel c = Fault \/ exists res, run alg nm f fuel c = Ok (Some res).
Proof using Type.
  induction fuel as [|fuel IH]; intros c Hc Hf.
  - destruct c as [s l|s v l|r l k]; simpl in *.
    + unfold outer_bound in Hf. destruct (converged s); nia.
    + unfold outer_bound in Hf. destruct (pending s v), (converged s); nia.
    + right. eauto.
  - destruct c as [s l|s v l|r l k]; [| |right; simpl; eauto].
    + cbn [run]. destruct (step alg nm f (AtOuter s l)) as [c'|w|] eqn:Es.
      * destruct (step_solve_cfg _ _ Hc Es) as [Hc' [Hlt|H0]].
        -- apply IH; trivial. nia.
        -- simpl in H0. unfold outer_bound in H0. destruct (converged s); nia.
      * now destruct (step_no_throw _ _ Es).
      * now left.
    + cbn [run]. destruct (step alg nm f (AtInner s v l)) as [c'|w|] eqn:Es.
      * destruct (step_solve_cfg _ _ Hc Es) as [Hc' [Hlt|H0]].
        -- apply IH; trivial. nia.
        -- simpl in H0. unfold outer_bound in H0.
           destruct (pending s v), (converged s); nia.
      * now destruct (step_no_throw _ _ Es).
      * now left.
Qed.

(** More fuel does not change a result. *)
Lemma run_more fuel : forall c k,
  run alg nm f fuel c <> Ok None ->
  run alg nm f (fuel + k) c = run alg nm f fuel c.
Proof using Type.
  induction fuel as [|fuel IH]; intros c k H.
  - destruct c as [s l|s v l|r l k']; simpl in *; try congruence. now destruct k.
  - destruct c as [s l|s v l|r l k']; [| |reflexivity].
    + cbn [run Nat.add] in *. destruct (step alg nm f (AtOuter s l)); simpl in *; auto.
    + cbn [run Nat.add] in *. destruct (step alg nm f (AtInner s v l)); simpl in *; auto.
Qed.

End Bounds.

(** ** The solver with an empty active set *)




(** X12: [Solve] terminates.  With [cap] the larger of [maxCount] and 1,
    a call passes at most [(cap + 2) * cap + 1] loop tests: unless it
    leaves defined behaviour, it returns within that bound, and a larger
    bound gives the same outcome. *)
Theorem Solve_terminates (alg : LevenbergMarquardtAlgorithm) (nm : Numerics)
    (f : LeastSquaresProblem) (x0 : Vec) (fuel : nat) :
  (cap alg + 2) * cap alg + 1 <= fuel ->
  (Solve alg nm f fuel x0 = Fault \/
   exists res, Solve alg nm f fuel x0 = Ok (Some res)) /\
  Solve alg nm f fuel x0 = Solve alg nm f ((cap alg + 2) * cap alg + 1) x0.
Proof.
  intros Hfuel. unfold Solve.
  destruct (Solve_entry alg nm f x0) as [c0|w|] eqn:E; simpl; [| |auto].
  - destruct (Solve_entry_solve_cfg alg nm f x0 c0 E) as [Hc Hs].
    assert (forall n, steps_left alg c0 <= n -> run alg nm f n c0 <> Ok None) as Hn.
    { intros n Hle.
      destruct (run_terminates alg nm f x0 n c0 Hc Hle) as [->|[res ->]]; discriminate. }
    split.
    + apply run_terminates with (x0 := x0); trivial. lia.
    + replace fuel with ((cap alg + 2) * cap alg + 1 + (fuel - ((cap alg + 2) * cap alg + 1)))
        at 1 by lia.
      apply run_more, Hn. lia.
  - unfold Solve_entry in E. destruct (1 <? m_eta alg)%float; discriminate.
Qed.

(** X13: [Solve] calls [SetSolution] at most once.  Either it returns false
    without having called it (an ill-posed problem or an exception), or it
    has called it once, after the loops, and returns what the call
    returned. *)
Theorem Solve_sink_once (alg : LevenbergMarquardtAlgorithm) (nm : Numerics)
    (f : LeastSquaresProblem) (x0 : Vec) (fuel : nat) (res : solve_result) :
  Solve alg nm f fuel x0 = Ok (Some res) ->
  (ret res = false /\ sink res = []) \/
  (exists x, sink res = [x] /\ ret res = SetSolution f x).
Proof.
  unfold Solve. intros E. apply bind_Ok in E as (c0 & E0 & E).
  destruct (Solve_entry_solve_cfg alg nm f x0 c0 E0) as [Hc _].
  destruct (run_solve_cfg alg nm f x0 fuel c0 res Hc E) as [?|(s & _ & _ & ? & ?)];
    [now left | right; eauto].
Qed.

(** X14: the solution that [Solve] hands to [SetSolution] is as long as
    [x0] and agrees with [x0] at every coordinate outside the active set:
    frozen parameters come back unchanged. *)
Theorem Solve_keeps_inactive (alg : LevenbergMarquardtAlgorithm) (nm : Numerics)
    (f : LeastSquaresProblem) (x0 : Vec) (fuel : nat) (res : solve_result) :
  Solve alg nm f fuel x0 = Ok (Some res) ->
  forall x, x ∈ sink res ->
    length x = length x0 /\ forall k, k ∉ m_varIdx f -> x !! k = x0 !! k.
Proof.
  unfold Solve. intros E. apply bind_Ok in E as (c0 & E0 & E).
  destruct (Solve_entry_solve_cfg alg nm f x0 c0 E0) as [Hc _].
  destruct (run_solve_cfg alg nm f x0 fuel c0 res Hc E)
    as [[_ ->]|(s & Hs & _ & -> & _)]; intros x Hx.
  - inversion Hx.
  - apply list_elem_of_singleton in Hx as ->.
    destruct Hs as (_ & _ & Hl & Hf & _). auto.
Qed.

(** X15: the solution that [Solve] hands to [SetSolution] is [x0] itself or
    a point whose residual has a strictly smaller rms than the residual at
    [x0]. *)
Theorem Solve_never_worse (alg : LevenbergMarquardtAlgorithm) (nm : Numerics)
    (f : LeastSquaresProblem) (x0 : Vec) (fuel : nat) (res : solve_result) :
  Solve alg nm f fuel x0 = Ok (Some res) ->
  forall x, x ∈ sink res ->
    x = x0 \/ (rms nm (call f x) <? rms nm (call f x0))%float = true.
Proof.
  unfold Solve. intros E. apply bind_Ok in E as (c0 & E0 & E).
  destruct (Solve_entry_solve_cfg alg nm f x0 c0 E0) as [Hc _].
  destruct (run_solve_cfg alg nm f x0 fuel c0 res Hc E)
    as [[_ ->]|(s & Hs & _ & -> & _)]; intros x Hx.
  - inversion Hx.
  - apply list_elem_of_singleton in Hx as ->.
    destruct Hs as ((Hy & He & _) & _ & _ & _ & [[_ ?]|Hlt] & _); [now left | right].
    now rewrite <- Hy, <- He.
Qed.

(** X16: at every loop test of [Solve] the number of accepted updates is at
    most the larger of [maxCount] and 1, and so is the number of trials of
    the current outer iteration; [derr] has one entry for each accepted
    update, every one of them positive; and at the return [SetSolution] has
    been called at most once. *)
Theorem Solve_counts_bounded (alg : LevenbergMarquardtAlgorithm) (nm : Numerics)
    (f : LeastSquaresProblem) (x0 : Vec) (c0 c : config) :
  Solve_entry alg nm f x0 = Ok c0 -> reach alg nm f c0 c ->
  match c with
  | AtOuter s _ =>
      updates s <= cap alg /\
      length (derr s) = updates s /\
      Forall (fun de => (0 <? de)%float = true) (derr s)
  | AtInner s v _ =>
      updates s <= cap alg /\
      trials v <= cap alg /\
      length (derr s) = updates s /\
      Forall (fun de => (0 <? de)%float = true) (derr s)
  | Returned _ _ k => length k <= 1
  end.
Proof.
  intros E Hr. pose proof (reach_solve_cfg alg nm f x0 c0 c E Hr) as Hc.
  destruct c as [s l|s v l|r l k]; simpl in Hc.
  - destruct Hc as ((_ & _ & Hd) & Hpos & _ & _ & _ & Hle & _). auto.
  - destruct Hc as (((_ & _ & Hd) & Hpos & _ & _ & _ & Hle & _) & Ht & _). auto.
  - destruct Hc as [[_ ->]|(s & _ & _ & -> & _)]; simpl; lia.
Qed.

Lemma mute_app l l' : mute (l ++ l') = mute l ++ mute l'.
Proof. apply filter_app. Qed.

Lemma mute_not_responsive icv : forall d, mute (not_responsive icv d) = not_responsive icv d.
Proof.
  induction icv as [|a icv IH]; intros d; simpl; trivial.
  rewrite mute_app, IH. now destruct (a =? 0)%float.
Qed.

Lemma step_mute alg nm f c :
  step (quiet alg) nm f (mute_cfg c) = outcome_map mute_cfg (step alg nm f c).
Proof.
  destruct c as [s l|s v l|r l k]; simpl.
  - destruct (converged s).
    + unfold finish. destruct (SetSolution f (x_best s)); simpl; trivial.
      now rewrite mute_app.
    + unfold begin_outer.
      destruct (ComputeJacobian f (x_best s) (y_best s)) as [r|w|]; simpl; trivial;
        [|now rewrite mute_app].
      destruct (cv_gemm nm (Mat_t (jac r)) (jac r)) as [H|w|]; simpl; trivial;
        [|now rewrite mute_app].
      destruct (cv_gemm nm (Mat_t (jac r)) (Mat_of_vec (y_io r))) as [D|w|]; simpl; trivial.
      now rewrite mute_app.
  - destruct (negb (better v) && negb (converged s)).
    + unfold trial.
      change (trial_body (quiet alg) nm f s v) with (trial_body alg nm f s v).
      destruct (trial_body alg nm f s v) as [[[[s2 v2] w] ill]|w|] eqn:Eb; simpl; trivial.
      * apply trial_body_Ok in Eb as (xd & xt & _ & _ & _ & -> & _).
        destruct ill; simpl.
        -- now rewrite !mute_app, mute_not_responsive.
        -- now rewrite mute_app, mute_not_responsive.
      * now rewrite mute_app.
    + simpl. rewrite mute_app, app_nil_r. now destruct (m_verbose alg); rewrite app_nil_r.
  - reflexivity.
Qed.

Lemma run_mute alg nm f fuel : forall c,
  run (quiet alg) nm f fuel (mute_cfg c)
  = outcome_map (fmap mute_result) (run alg nm f fuel c).
Proof.
  induction fuel as [|fuel IH]; intros c.
  - destruct c; reflexivity.
  - destruct c as [s l|s v l|r l k]; [| |reflexivity].
    + cbn [run mute_cfg]. change (AtOuter s (mute l)) with (mute_cfg (AtOuter s l)).
      rewrite step_mute. destruct (step alg nm f (AtOuter s l)); simpl; trivial.
    + cbn [run mute_cfg]. change (AtInner s v (mute l)) with (mute_cfg (AtInner s v l)).
      rewrite step_mute. destruct (step alg nm f (AtInner s v l)); simpl; trivial.
Qed.

(** X17: [m_verbose] changes nothing but the log: the call with
    [m_verbose] cleared has the outcome, the return value and the solution
    of the call with it set, and its log is that log without the header and
    the rows of the progress table. *)
Theorem Solve_verbose_only_logs (alg : LevenbergMarquardtAlgorithm) (nm : Numerics)
    (f : LeastSquaresProblem) (x0 : Vec) (fuel : nat) :
  Solve (quiet alg) nm f fuel x0
  = outcome_map (fmap mute_result) (Solve alg nm f fuel x0).
Proof.
  unfold Solve, Solve_entry. simpl. destruct (1 <? m_eta alg)%float; simpl; trivial.
  rewrite <- run_mute. simpl. now destruct (m_verbose alg).
Qed.

Lemma ComputeJacobian_throws p x y :
  0 < m_diffThreads p -> masking p = true ->
  Exists (fun var => cols (m_jacobianPattern p) <= var) (m_varIdx p) ->
  exists w, ComputeJacobian p x y = Throw w.
Proof.
  intros HT Hm Hex.
  destruct (make_slices_throws p x (y_used p x y) (m_varIdx p) 0
              (replicate (m_diffThreads p) []) HT Hm Hex) as [w Hw].
  exists w. unfold ComputeJacobian, Jacobian_setup.
  fold (masking p). fold (y_used p x y). now rewrite Hw.
Qed.


(** ** The further properties on the sample problems *)

Lemma ComputeJacobian_shape_witness :
  exists r, ComputeJacobian Samples.planar [1; 2; 3]%float [] = Ok r /\
    rows (jac r) = m_conds Samples.planar /\
    cols (jac r) = length (m_varIdx Samples.planar) /\ Mat_wf (jac r).
Proof.
  eexists. split; [reflexivity|].
  exact (ComputeJacobian_shape Samples.planar [1; 2; 3]%float [] _ eq_refl).
Defined.


Lemma ComputeJacobian_wrong_length_witness :
  exists r, ComputeJacobian Edge.long3 [0%float] [] = Ok r /\
    y_io r = [(-3); 0; 1]%float /\
    jac r = Mat_zeros (m_conds Edge.long3) (length (m_varIdx Edge.long3)).
Proof.
  eexists. split; [reflexivity|]. split; [reflexivity|].
  refine (ComputeJacobian_wrong_length Edge.long3 [0%float] [] _ eq_refl _ _ _).
  - repeat constructor.
  - discriminate.
  - simpl. lia.
Defined.

Lemma ComputeJacobian_ignores_pattern_witness :
  ComputeJacobian (with_pattern Samples.shift3 (mkMat 1 1 [[0%Z]])) [0%float] []
  = outcome_map
      (fun r => {| jac := jac r; y_io := y_io r;
                   self := with_pattern Samples.shift3 (mkMat 1 1 [[0%Z]]) |})
      (ComputeJacobian Samples.shift3 [0%float] []).
Proof.
  apply (ComputeJacobian_ignores_pattern Samples.shift3 (mkMat 1 1 [[0%Z]])).
  - intros H. discriminate H.
  - intros _. repeat constructor.
Defined.

Lemma ComputeJacobian_round_robin_witness :
  exists J y0 qs,
    Jacobian_setup Edge.all_three [1; 2; 3]%float [] = Ok (J, y0, qs) /\
    length qs = 2 /\
    forall t q, qs !! t = Some q ->
      (fun sl => (sl_col sl, sl_var sl)) <$> q
      = filter (fun iv => iv.1 mod 2 = t) [(0, 0); (1, 1); (2, 2)] /\
      Forall (fun sl => sl_x sl = [1; 2; 3]%float /\ sl_y sl = y0) q.
Proof.
  eexists _, _, _. split; [reflexivity|].
  refine (ComputeJacobian_round_robin Edge.all_three [1; 2; 3]%float [] _ _ _ _ eq_refl).
  simpl. lia.
Defined.

Lemma ComputeJacobian_empty_active_witness :
  ComputeJacobian Samples.shift3_frozen [1%float] []
  = Ok {| jac := Mat_zeros 1 0; y_io := [(-2)%float]; self := Samples.shift3_frozen |} /\
  ComputeJacobian_sched Samples.shift3_frozen [0; 0] [1%float] []
  = Ok ([[]], {| jac := Mat_zeros 1 0; y_io := [(-2)%float];
                 self := Samples.shift3_frozen |}).
Proof.
  exact (ComputeJacobian_empty_active Samples.shift3_frozen [0; 0] [1%float] [] eq_refl).
Defined.

Lemma Solve_terminates_witness :
  (Solve Samples.lm Reference.numerics Samples.shift3 20 [0%float] = Fault \/
   exists res,
     Solve Samples.lm Reference.numerics Samples.shift3 20 [0%float] = Ok (Some res)) /\
  Solve Samples.lm Reference.numerics Samples.shift3 20 [0%float]
  = Solve Samples.lm Reference.numerics Samples.shift3 16 [0%float].
Proof.
  apply (Solve_terminates Samples.lm Reference.numerics Samples.shift3 [0%float] 20).
  simpl. lia.
Defined.

Lemma Solve_sink_once_witness :
  (ret Edge.descent_run = false /\ sink Edge.descent_run = []) \/
  (exists x, sink Edge.descent_run = [x] /\
     ret Edge.descent_run = SetSolution Samples.shift3 x).
Proof.
  exact (Solve_sink_once Samples.lm Reference.numerics Samples.shift3 [0%float] 16
           Edge.descent_run eq_refl).
Defined.

Lemma Solve_keeps_inactive_witness :
  match sink Edge.partial_run with
  | [x] => length x = 3 /\
           forall k, k ∉ m_varIdx Edge.one_of_three -> x !! k = [1; 2; 3]%float !! k
  | _ => False
  end.
Proof.
  lazymatch eval vm_compute in (sink Edge.partial_run) with
  | [?x] =>
      exact (Solve_keeps_inactive Samples.lm Reference.numerics Edge.one_of_three
               [1; 2; 3]%float 16 Edge.partial_run eq_refl x (list_elem_of_here x []))
  end.
Defined.

Lemma Solve_never_worse_witness :
  match sink Edge.descent_run with
  | [x] => x = [0%float] \/
           (Reference.rms (call Samples.shift3 x)
            <? Reference.rms (call Samples.shift3 [0%float]))%float = true
  | _ => False
  end.
Proof.
  lazymatch eval vm_compute in (sink Edge.descent_run) with
  | [?x] =>
      exact (Solve_never_worse Samples.lm Reference.numerics Samples.shift3
               [0%float] 16 Edge.descent_run eq_refl x (list_elem_of_here x []))
  end.
Defined.

Lemma Solve_counts_bounded_witness :
  match Samples.descent_1 with
  | AtInner s v _ =>
      updates s <= cap Samples.lm /\ trials v <= cap Samples.lm /\
      length (derr s) = updates s /\
      Forall (fun de => (0 <? de)%float = true) (derr s)
  | _ => False
  end.
Proof.
  exact (Solve_counts_bounded Samples.lm Reference.numerics Samples.shift3 [0%float]
           Samples.descent_0 Samples.descent_1 eq_refl descent_reach).
Defined.

